(** * Playlist synchronisation engine: model and verified properties

    A shallow embedding of [playlist_sync/models.py], [playlist_sync/storage.py]
    and [playlist_sync/sync.py], and of [search_track] of the connectors in
    [playlist_sync/connectors].

    Conventions.
    - A Python [str] is a [string] whose characters are the code points
      below 256 of the text.
    - A [Dict[ServiceType, str]] is an association list in insertion order
      (Python dictionaries iterate in insertion order); [dict_wf] says the
      keys are pairwise distinct.
    - The state store is a finite map from keys to JSON values.
    - Awaited calls are steps of a state-and-exception monad; every call to a
      connector or to the store is appended to a log. *)

From Stdlib Require Import ZArith Lia Ascii String List Bool DecimalString.
From stdpp Require Import base option list gmap strings.

Local Open Scope string_scope.
Local Open Scope list_scope.

(** ** models.py *)

Inductive ServiceType := SPOTIFY | APPLE_MUSIC | YOUTUBE_MUSIC.

#[global] Instance ServiceType_eq_dec : EqDecision ServiceType.
Proof. solve_decision. Defined.

(** [ServiceType.value] *)
Definition service_value (s : ServiceType) : string :=
  match s with
  | SPOTIFY => "spotify"
  | APPLE_MUSIC => "apple_music"
  | YOUTUBE_MUSIC => "youtube_music"
  end.

(** [ServiceType(text)]: lookup by value, [None] stands for [ValueError]. *)
Definition service_of_value (v : string) : option ServiceType :=
  if String.eqb v "spotify" then Some SPOTIFY
  else if String.eqb v "apple_music" then Some APPLE_MUSIC
  else if String.eqb v "youtube_music" then Some YOUTUBE_MUSIC
  else None.

Record Track := mkTrack {
  track_id : string;
  title : string;
  artists : list string;
  album : option string;
  isrc : option string;
  duration_ms : option Z
}.

(** [str.lower] on code points below 256: the upper-case letters are A-Z and
    U+00C0..U+00DE without U+00D7, each 32 below its lower-case letter. *)
Definition lower_char (c : ascii) : ascii :=
  let n := nat_of_ascii c in
  if ((65 <=? n) && (n <=? 90) || (192 <=? n) && (n <=? 222) && negb (n =? 215))%nat
  then ascii_of_nat (n + 32) else c.

Fixpoint lower (s : string) : string :=
  match s with
  | EmptyString => EmptyString
  | String c r => String (lower_char c) (lower r)
  end.

(** [sep.join(parts)] *)
Definition join (sep : string) (parts : list string) : string :=
  String.concat sep parts.

(** [self.album or ""] *)
Definition or_empty (o : option string) : string :=
  match o with Some s => s | None => EmptyString end.

Definition normalized_signature (t : Track) : string :=
  let artists := lower (join " " (artists t)) in
  let album := lower (or_empty (album t)) in
  lower (title t) +:+ "|" +:+ artists +:+ "|" +:+ album.

(** The comparison made by the Spotify and Apple Music [search_track]:
    [candidate.normalized_signature() == track.normalized_signature()]. *)
Definition signature_match (candidate track : Track) : bool :=
  String.eqb (normalized_signature candidate) (normalized_signature track).

(** ** JSON values and [json.dumps]

    The payloads handed to [json.dumps] and kept by the state store. *)

#[warnings="-register-all"]
Inductive json :=
| JNull
| JBool (b : bool)
| JNum (n : Z)
| JStr (s : string)
| JArr (items : list json)
| JObj (members : list (string * json)).

Definition dquote : ascii := "034"%char.
Definition backslash : ascii := "092"%char.

Definition hex_digit (n : nat) : ascii :=
  match String.get n "0123456789abcdef" with Some c => c | None => "0"%char end.

(** One character of a string literal under [ensure_ascii=True]: the
    printable ASCII characters other than the quote and the backslash stand
    for themselves, the rest is escaped. *)
Definition escape_char (c : ascii) : string :=
  let n := nat_of_ascii c in
  if Ascii.eqb c dquote then String backslash (String dquote EmptyString)
  else if Ascii.eqb c backslash then String backslash (String backslash EmptyString)
  else if (n =? 10)%nat then String backslash "n"
  else if (n =? 13)%nat then String backslash "r"
  else if (n =? 9)%nat then String backslash "t"
  else if (n =? 8)%nat then String backslash "b"
  else if (n =? 12)%nat then String backslash "f"
  else if ((n <? 32) || (126 <? n))%nat then
    String backslash
      (String "u" (String "0" (String "0"
         (String (hex_digit (n / 16)) (String (hex_digit (n mod 16)) EmptyString)))))
  else String c EmptyString.

Fixpoint escape (s : string) : string :=
  match s with
  | EmptyString => EmptyString
  | String c r => escape_char c +:+ escape r
  end.

Definition dumps_str (s : string) : string :=
  String dquote (escape s +:+ String dquote EmptyString).

Definition dumps_int (n : Z) : string :=
  DecimalString.NilZero.string_of_int (Z.to_int n).

(** [sorted(dct.items())]: insertion of one member by key, keys compared by
    code points. *)
Fixpoint insert_member {A} (kv : string * A) (l : list (string * A)) : list (string * A) :=
  match l with
  | [] => [kv]
  | kv' :: r => if String.leb kv.1 kv'.1 then kv :: l else kv' :: insert_member kv r
  end.

Definition sort_members {A} (l : list (string * A)) : list (string * A) :=
  foldr insert_member [] l.

(** The effect of [sort_keys=True] on a value: every object lists its
    members by increasing key. *)
Fixpoint sort_keys (j : json) : json :=
  match j with
  | JArr items => JArr (map sort_keys items)
  | JObj members =>
      JObj (sort_members (map (fun kv => (kv.1, sort_keys kv.2)) members))
  | _ => j
  end.

(** [json.dumps] with the default separators and the members as listed. *)
Fixpoint dumps_plain (j : json) : string :=
  match j with
  | JNull => "null"
  | JBool true => "true"
  | JBool false => "false"
  | JNum n => dumps_int n
  | JStr s => dumps_str s
  | JArr items => "[" +:+ join ", " (map dumps_plain items) +:+ "]"
  | JObj members =>
      "{" +:+ join ", " (map (fun kv => dumps_str kv.1 +:+ ": " +:+ dumps_plain kv.2) members)
          +:+ "}"
  end.

(** [json.dumps(payload, sort_keys=True)] *)
Definition dumps (j : json) : string := dumps_plain (sort_keys j).

(** ** [hashlib.sha256]

    SHA-256 (FIPS 180-4) on byte strings, words as integers below [2^32]. *)

Module SHA256.
Local Open Scope Z_scope.

Definition w32 (x : Z) : Z := x mod 2 ^ 32.
Definition add32 (x y : Z) : Z := w32 (x + y).
Definition rotr (n x : Z) : Z := w32 (Z.lor (Z.shiftr x n) (Z.shiftl x (32 - n))).
Definition shr (n x : Z) : Z := Z.shiftr x n.
Definition not32 (x : Z) : Z := Z.lxor x 0xffffffff.

Definition Ch (x y z : Z) : Z := Z.lxor (Z.land x y) (Z.land (not32 x) z).
Definition Maj (x y z : Z) : Z :=
  Z.lxor (Z.lxor (Z.land x y) (Z.land x z)) (Z.land y z).
Definition Sigma0 (x : Z) : Z := Z.lxor (Z.lxor (rotr 2 x) (rotr 13 x)) (rotr 22 x).
Definition Sigma1 (x : Z) : Z := Z.lxor (Z.lxor (rotr 6 x) (rotr 11 x)) (rotr 25 x).
Definition sigma0 (x : Z) : Z := Z.lxor (Z.lxor (rotr 7 x) (rotr 18 x)) (shr 3 x).
Definition sigma1 (x : Z) : Z := Z.lxor (Z.lxor (rotr 17 x) (rotr 19 x)) (shr 10 x).

(** The first 64 primes. *)
Definition primes : list Z :=
  [2; 3; 5; 7; 11; 13; 17; 19; 23; 29; 31; 37; 41; 43; 47; 53; 59; 61; 67; 71; 73; 79; 83;
   89; 97; 101; 103; 107; 109; 113; 127; 131; 137; 139; 149; 151; 157; 163; 167; 173; 179;
   181; 191; 193; 197; 199; 211; 223; 227; 229; 233; 239; 241; 251; 257; 263; 269; 271; 277;
   281; 283; 293; 307; 311].

(** The integer cube root of [n], found bit by bit from bit [bits - 1] down. *)
Fixpoint cube_root (bits : nat) (n acc : Z) : Z :=
  match bits with
  | O => acc
  | S b =>
      let c := acc + 2 ^ Z.of_nat b in
      if c * c * c <=? n then cube_root b n c else cube_root b n acc
  end.

(** The round constants: the first 32 bits of the fractional parts of the
    cube roots of the primes. *)
Definition K : list Z :=
  Eval vm_compute in map (fun p => w32 (cube_root 36 (p * 2 ^ 96) 0)) primes.

(** The eight working variables, also the chaining value. *)
Record hash_state := HS { ha : Z; hb : Z; hc : Z; hd : Z; he : Z; hf : Z; hg : Z; hh : Z }.

(** The initial value: the first 32 bits of the fractional parts of the
    square roots of the first eight primes. *)
Definition frac_sqrt (p : Z) : Z := w32 (Z.sqrt (p * 2 ^ 64)).

Definition H0 : hash_state :=
  Eval vm_compute in
    HS (frac_sqrt 2) (frac_sqrt 3) (frac_sqrt 5) (frac_sqrt 7)
       (frac_sqrt 11) (frac_sqrt 13) (frac_sqrt 17) (frac_sqrt 19).

(** Padding: the bit 1, zeros up to 56 modulo 64, the bit length on 8 bytes. *)
Definition be_bytes (n : nat) (x : Z) : list Z :=
  map (fun i => Z.shiftr x (8 * Z.of_nat i) mod 256) (rev (seq 0 n)).

Definition pad (msg : list Z) : list Z :=
  let len := Z.of_nat (length msg) in
  msg ++ [0x80] ++ repeat 0 (Z.to_nat ((55 - len) mod 64)) ++ be_bytes 8 (8 * len).

Definition be_word (bs : list Z) : Z :=
  fold_left (fun acc b => acc * 256 + b) bs 0.

Fixpoint words (n : nat) (bs : list Z) : list Z :=
  match n with
  | O => []
  | S n' => be_word (firstn 4 bs) :: words n' (skipn 4 bs)
  end.

(** The message schedule, most recent word first. *)
Fixpoint extend (n : nat) (w : list Z) : list Z :=
  match n with
  | O => w
  | S n' =>
      let x := add32 (add32 (sigma1 (nth 1 w 0)) (nth 6 w 0))
                     (add32 (sigma0 (nth 14 w 0)) (nth 15 w 0)) in
      extend n' (x :: w)
  end.

Definition schedule (block : list Z) : list Z :=
  rev (extend 48 (rev (words 16 block))).

Definition round (s : hash_state) (kw : Z * Z) : hash_state :=
  let t1 := add32 (add32 (add32 (hh s) (Sigma1 (he s))) (Ch (he s) (hf s) (hg s)))
                  (add32 kw.1 kw.2) in
  let t2 := add32 (Sigma0 (ha s)) (Maj (ha s) (hb s) (hc s)) in
  HS (add32 t1 t2) (ha s) (hb s) (hc s) (add32 (hd s) t1) (he s) (hf s) (hg s).

Definition compress (h : hash_state) (block : list Z) : hash_state :=
  let s := fold_left round (combine K (schedule block)) h in
  HS (add32 (ha h) (ha s)) (add32 (hb h) (hb s)) (add32 (hc h) (hc s)) (add32 (hd h) (hd s))
     (add32 (he h) (he s)) (add32 (hf h) (hf s)) (add32 (hg h) (hg s)) (add32 (hh h) (hh s)).

Fixpoint blocks (n : nat) (h : hash_state) (bs : list Z) : hash_state :=
  match n with
  | O => h
  | S n' => blocks n' (compress h (firstn 64 bs)) (skipn 64 bs)
  end.

Definition digest_state (msg : list Z) : hash_state :=
  let p := pad msg in blocks (length p / 64) H0 p.

Definition hex_alphabet : list ascii := list_ascii_of_string "0123456789abcdef".

Definition hex_nibble (x : Z) (i : Z) : ascii :=
  hex_digit (Z.to_nat (Z.shiftr x (4 * i) mod 16)).

Definition hex_word (x : Z) (rest : string) : string :=
  String (hex_nibble x 7) (String (hex_nibble x 6) (String (hex_nibble x 5)
  (String (hex_nibble x 4) (String (hex_nibble x 3) (String (hex_nibble x 2)
  (String (hex_nibble x 1) (String (hex_nibble x 0) rest))))))).

Definition hex_state (s : hash_state) : string :=
  hex_word (ha s) (hex_word (hb s) (hex_word (hc s) (hex_word (hd s)
  (hex_word (he s) (hex_word (hf s) (hex_word (hg s) (hex_word (hh s) EmptyString))))))).

(** [hashlib.sha256(raw).hexdigest()], [raw] given as the string of its bytes. *)
Definition hexdigest (raw : string) : string :=
  hex_state (digest_state (map (fun c => Z.of_nat (nat_of_ascii c)) (list_ascii_of_string raw))).

End SHA256.

(** ** Python dictionaries in insertion order *)

Section Dict.
Context {K V : Type} `{EqDecision K}.

(** [d.get(k)] *)
Fixpoint dict_get (d : list (K * V)) (k : K) : option V :=
  match d with
  | [] => None
  | (k', v) :: r => if decide (k = k') then Some v else dict_get r k
  end.

(** [d[k] = v]: an existing key keeps its place, a new key goes last. *)
Fixpoint dict_set (d : list (K * V)) (k : K) (v : V) : list (K * V) :=
  match d with
  | [] => [(k, v)]
  | (k', v') :: r => if decide (k = k') then (k', v) :: r else (k', v') :: dict_set r k v
  end.

(** A dictionary built by a comprehension over [items]. *)
Definition dict_of_items (items : list (K * V)) : list (K * V) :=
  fold_left (fun d kv => dict_set d kv.1 kv.2) items [].

(** The keys of a dictionary are pairwise distinct. *)
Definition dict_wf (d : list (K * V)) : Prop := NoDup d.*1.

(** [d1 == d2] on dictionaries: the same keys with the same values, in any
    order. *)
Definition dict_equal (d1 d2 : list (K * V)) : Prop :=
  forall k, dict_get d1 k = dict_get d2 k.
End Dict.

(** ** Exceptions and awaited calls *)

Inductive exn :=
| KeyError (key : string)
| ValueError
| TypeError
| AttributeError
| ServiceError (message : string).

Inductive Result (A : Type) :=
| Ok (a : A)
| Raise (e : exn).
Arguments Ok {A} a.
Arguments Raise {A} e.

#[global] Instance Result_ret : MRet Result := fun _ a => Ok a.
#[global] Instance Result_bind : MBind Result := fun _ _ f r =>
  match r with Ok a => f a | Raise e => Raise e end.

Inductive Event :=
| EvTokenReady (service : ServiceType)
| EvListTracks (service : ServiceType) (playlist_id : string)
| EvSearchTrack (service : ServiceType) (track : Track)
| EvReplaceTracks (service : ServiceType) (playlist_id : string) (tracks : list Track)
| EvStorageGet (key : string)
| EvStorageSet (key : string) (value : json)
| EvStorageDelete (key : string).

(** What a sweep can change and what it leaves behind: the content of the
    state file and the calls made so far, oldest first. *)
Record State := mkState {
  store : gmap string json;
  log : list Event
}.

Definition M (A : Type) : Type := State -> Result A * State.

#[global] Instance M_ret : MRet M := fun _ a st => (Ok a, st).
#[global] Instance M_bind : MBind M := fun _ _ f m st =>
  match m st with
  | (Ok a, st') => f a st'
  | (Raise e, st') => (Raise e, st')
  end.

Definition record (ev : Event) (st : State) : State :=
  mkState (store st) (log st ++ [ev]).

(** An awaited connector call: logged, then its answer or its exception.
    What a connector writes to the storage for itself (its token keys) is
    not modelled: the store holds the registry and the snapshots. *)
Definition call {A} (ev : Event) (answer : Result A) : M A :=
  fun st => (answer, record ev st).

Definition lift {A} (r : Result A) : M A := fun st => (r, st).

(** [for x in xs: await body(x)] *)
Fixpoint for_each {A} (body : A -> M unit) (xs : list A) : M unit :=
  match xs with
  | [] => mret tt
  | x :: r => body x ≫= fun _ => for_each body r
  end.

(** ** storage.py *)

(** [JSONStorage.get]: [data.get(key, default)]. *)
Definition storage_get (key : string) (default : json) : M json :=
  fun st => (Ok (from_option id default (store st !! key)), record (EvStorageGet key) st).

(** [JSONStorage.set]: the whole file is rewritten with [sort_keys=True] and
    read back by the next call. *)
Definition storage_set (key : string) (value : json) : M unit :=
  fun st => (Ok tt, mkState (sort_keys <$> <[key := value]> (store st))
                            (log st ++ [EvStorageSet key value])).

(** [JSONStorage.delete]: the file is rewritten only when the key is there. *)
Definition storage_delete (key : string) : M unit :=
  fun st =>
    (Ok tt, mkState (match store st !! key with
                     | Some _ => sort_keys <$> delete key (store st)
                     | None => store st
                     end)
                    (log st ++ [EvStorageDelete key])).

(** ** sync.py: sync groups *)

Record SyncGroup := mkGroup {
  group_id : string;
  name : string;
  primary_service : ServiceType;
  playlists : list (ServiceType * string)
}.

Definition to_dict (g : SyncGroup) : json :=
  JObj [("id", JStr (group_id g));
        ("name", JStr (name g));
        ("primary_service", JStr (service_value (primary_service g)));
        ("playlists",
         JObj (dict_of_items (map (fun sp => (service_value sp.1, JStr sp.2)) (playlists g))))].

(** [payload.get(key)] *)
Definition json_get (payload : json) (key : string) : Result (option json) :=
  match payload with
  | JObj members => Ok (dict_get members key)
  | _ => Raise AttributeError
  end.

(** [payload[key]] *)
Definition json_item (payload : json) (key : string) : Result json :=
  match payload with
  | JObj members =>
      match dict_get members key with
      | Some v => Ok v
      | None => Raise (KeyError key)
      end
  | _ => Raise TypeError
  end.

(** Truth value of a JSON value in a condition. *)
Definition truthy (j : json) : bool :=
  match j with
  | JNull => false
  | JBool b => b
  | JNum n => negb (n =? 0)%Z
  | JStr s => negb (String.eqb s EmptyString)
  | JArr items => negb (bool_decide (items = []))
  | JObj members => negb (bool_decide (members = []))
  end.

(** [value.items()] *)
Definition json_items (j : json) : Result (list (string * json)) :=
  match j with
  | JObj members => Ok members
  | _ => Raise AttributeError
  end.

(** The fields of [SyncGroup] annotated [str] hold strings; a payload with
    another JSON type in their place is outside the model and is reported as
    [TypeError]. *)
Definition as_str (j : json) : Result string :=
  match j with
  | JStr s => Ok s
  | _ => Raise TypeError
  end.

(** [ServiceType(value)] *)
Definition service_type (j : json) : Result ServiceType :=
  match j with
  | JStr v => match service_of_value v with Some s => Ok s | None => Raise ValueError end
  | _ => Raise ValueError
  end.

(** [{ServiceType(service): playlist_id for service, playlist_id in items}] *)
Fixpoint playlists_of_items (items : list (string * json))
    (acc : list (ServiceType * string)) : Result (list (ServiceType * string)) :=
  match items with
  | [] => Ok acc
  | (service, playlist_id) :: r =>
      s ← service_type (JStr service);
      p ← as_str playlist_id;
      playlists_of_items r (dict_set acc s p)
  end.

Definition from_dict (payload : json) : Result SyncGroup :=
  raw ← json_get payload "playlists";
  items ← json_items (match raw with
                      | Some v => if truthy v then v else JObj []
                      | None => JObj []
                      end);
  playlists ← playlists_of_items items [];
  id ← json_item payload "id" ≫= as_str;
  name ← json_item payload "name" ≫= as_str;
  primary ← json_item payload "primary_service" ≫= service_type;
  mret (mkGroup id name primary playlists).

(** Iterating over a JSON value: the items of a list, the keys of an object,
    the characters of a string. *)
Definition json_iter (j : json) : Result (list json) :=
  match j with
  | JArr items => Ok items
  | JObj members => Ok (map (fun kv => JStr kv.1) members)
  | JStr s => Ok (map (fun c => JStr (String c EmptyString)) (list_ascii_of_string s))
  | _ => Raise TypeError
  end.

(** [[f(x) for x in xs]] with [f] raising. *)
Fixpoint map_result {A B} (f : A -> Result B) (xs : list A) : Result (list B) :=
  match xs with
  | [] => Ok []
  | x :: r => y ← f x; ys ← map_result f r; mret (y :: ys)
  end.

Definition snapshot_key (g : SyncGroup) : string := "sync_snapshot::" +:+ group_id g.

(** The record of one track in the digest input. *)
Definition opt_str (o : option string) : json :=
  match o with Some s => JStr s | None => JNull end.

Definition track_payload (t : Track) : json :=
  JObj [("id", JStr (track_id t));
        ("title", JStr (title t));
        ("artists", JArr (map JStr (artists t)));
        ("album", opt_str (album t));
        ("isrc", opt_str (isrc t))].

(** [SyncManager._tracks_digest]; the serialization is ASCII, so its UTF-8
    encoding is the same string of bytes. *)
Definition _tracks_digest (tracks : list Track) : string :=
  let payload := JArr (map track_payload tracks) in
  let raw := dumps payload in
  SHA256.hexdigest raw.

(** ** sync.py: the manager *)

(** The answers of one service to the engine's calls during a sweep. *)
Record Connector := mkConnector {
  token_ready : Result bool;
  list_tracks : string -> Result (list Track);
  replace_tracks : string -> list Track -> Result unit;
  search_track : Track -> Result (option Track)
}.

Definition load_groups : M (list SyncGroup) :=
  raw ← storage_get "sync_groups" (JArr []);
  lift (json_iter raw ≫= map_result from_dict).

Definition save_groups (groups : list SyncGroup) : M unit :=
  storage_set "sync_groups" (JArr (map to_dict groups)).

(** [create_group]; [uuid] is the value drawn by [uuid.uuid4().hex]. *)
Definition create_group (uuid : string) (name : string) (primary : ServiceType)
    (playlists : list (ServiceType * string)) : M SyncGroup :=
  let group := mkGroup uuid name primary playlists in
  groups ← load_groups;
  save_groups (groups ++ [group]);;
  mret group.

(** The loop of [update_group] over [enumerate(groups)], from index [idx] on. *)
Fixpoint update_group_loop (groups : list SyncGroup) (idx : nat) (rest : list SyncGroup)
    (group_id' : string) (playlists' : list (ServiceType * string)) : M (option SyncGroup) :=
  match rest with
  | [] => mret None
  | group :: later =>
      if String.eqb (group_id group) group_id' then
        let group' := mkGroup (group_id group) (name group) (primary_service group) playlists' in
        save_groups (<[idx := group']> groups);;
        mret (Some group')
      else update_group_loop groups (S idx) later group_id' playlists'
  end.

Definition update_group (group_id' : string) (playlists' : list (ServiceType * string))
    : M (option SyncGroup) :=
  groups ← load_groups;
  update_group_loop groups 0 groups group_id' playlists'.

Definition delete_group (group_id' : string) : M unit :=
  loaded ← load_groups;
  let groups := filter (fun group => group_id group ≠ group_id') loaded in
  save_groups groups;;
  storage_delete ("sync_snapshot::" +:+ group_id').

Section SyncManager.
(** [self.connectors.get(service)] *)
Variable connectors : ServiceType -> option Connector.

(** The inner loop of [_sync_targets]. *)
Fixpoint search_all (connector : Connector) (service : ServiceType)
    (tracks : list Track) (mapped_tracks : list Track) : M (list Track) :=
  match tracks with
  | [] => mret mapped_tracks
  | track :: r =>
      matched ← call (EvSearchTrack service track) (search_track connector track);
      search_all connector service r
        (match matched with
         | Some m => mapped_tracks ++ [m]
         | None => mapped_tracks
         end)
  end.

(** The body of the loop of [_sync_targets] for one entry of the mapping. *)
Definition sync_target (group : SyncGroup) (source_tracks : list Track)
    (entry : ServiceType * string) : M unit :=
  let service := entry.1 in
  let playlist_id := entry.2 in
  if decide (service = primary_service group) then mret tt
  else match connectors service with
       | None => mret tt
       | Some connector =>
           ready ← call (EvTokenReady service) (token_ready connector);
           if negb ready then mret tt
           else match source_tracks with
                | [] => call (EvReplaceTracks service playlist_id [])
                             (replace_tracks connector playlist_id [])
                | _ =>
                    mapped_tracks ← search_all connector service source_tracks [];
                    call (EvReplaceTracks service playlist_id mapped_tracks)
                         (replace_tracks connector playlist_id mapped_tracks)
                end
       end.

Definition _sync_targets (group : SyncGroup) (source_tracks : list Track) : M unit :=
  for_each (sync_target group source_tracks) (playlists group).

Definition _sync_group (group : SyncGroup) : M unit :=
  match connectors (primary_service group) with
  | None => mret tt
  | Some primary_connector =>
      ready ← call (EvTokenReady (primary_service group)) (token_ready primary_connector);
      if negb ready then mret tt
      else match dict_get (playlists group) (primary_service group) with
           | None => mret tt
           | Some source_playlist_id =>
               if String.eqb source_playlist_id EmptyString then mret tt
               else
                 source_tracks ← call (EvListTracks (primary_service group) source_playlist_id)
                                      (list_tracks primary_connector source_playlist_id);
                 let digest := _tracks_digest source_tracks in
                 previous ← storage_get (snapshot_key group) JNull;
                 if match previous with JStr s => String.eqb s digest | _ => false end
                 then mret tt
                 else
                   _sync_targets group source_tracks;;
                   storage_set (snapshot_key group) (JStr digest)
           end
  end.

Definition run_once : M unit :=
  groups ← load_groups;
  for_each _sync_group groups.
End SyncManager.

(** ** sync.py: the polling loop

    One entry of the schedule describes one turn of the loop seen from
    outside: how the services answer during the pass, whether [stop] is
    called while the pass is in flight, and whether it is called during the
    wait that follows (otherwise the wait times out). *)

Record Tick := mkTick {
  tick_connectors : ServiceType -> option Connector;
  stop_during_pass : bool;
  stop_during_wait : bool
}.

Inductive Outcome :=
| Returned
| Raised (e : exn)
| Running.

Record RunResult := mkRun {
  outcome : Outcome;
  passes : nat;
  stop_event : bool;
  final : State
}.

(** [SyncManager.run]: [stop_event] is [self._stop_event.is_set()] and
    [passes] counts the passes started so far.  The lock is taken by this
    loop only, so taking it never waits.  A schedule that ends while the
    event is clear leaves the loop [Running]. *)
Fixpoint run (schedule : list Tick) (stop_event : bool) (passes : nat) (st : State)
    : RunResult :=
  if stop_event then mkRun Returned passes stop_event st
  else match schedule with
       | [] => mkRun Running passes stop_event st
       | tick :: later =>
           match run_once (tick_connectors tick) st with
           | (Raise e, st') => mkRun (Raised e) (S passes) (stop_during_pass tick) st'
           | (Ok _, st') =>
               let set_in_pass := stop_during_pass tick in
               (* wait_for(self._stop_event.wait(), timeout): returns at once
                  when the event is set, returns when it becomes set, or
                  times out and the loop continues *)
               let stop_event' := if set_in_pass then true else stop_during_wait tick in
               run later stop_event' (S passes) st'
           end
       end.

(** ** Comparing groups *)

(** The generated [SyncGroup.__eq__]: field by field, the mappings as
    dictionaries. *)
Definition group_equal (g1 g2 : SyncGroup) : Prop :=
  group_id g1 = group_id g2 /\ name g1 = name g2
  /\ primary_service g1 = primary_service g2
  /\ dict_equal (playlists g1) (playlists g2).

(** The wire form of one entry of the playlist mapping. *)
Definition playlist_member (sp : ServiceType * string) : string * json :=
  (service_value sp.1, JStr sp.2).

(** The mapping of a group as it is read back from the state file: the
    entries by increasing service value. *)
Fixpoint insert_playlist (sp : ServiceType * string) (l : list (ServiceType * string))
    : list (ServiceType * string) :=
  match l with
  | [] => [sp]
  | sp' :: r =>
      if String.leb (service_value sp.1) (service_value sp'.1) then sp :: l
      else sp' :: insert_playlist sp r
  end.

Definition sort_playlists (l : list (ServiceType * string)) : list (ServiceType * string) :=
  foldr insert_playlist [] l.

Definition stored_group (g : SyncGroup) : SyncGroup :=
  mkGroup (group_id g) (name g) (primary_service g) (sort_playlists (playlists g)).

(** ** The scenario of tests/test_sync_manager.py *)

(** [FakeConnector]: one track in every playlist, every search answered by
    a copy of the track under a new id. *)
Definition FakeConnector (service : ServiceType) (token : bool) : Connector :=
  mkConnector
    (Ok token)
    (fun _ => Ok [mkTrack (service_value service +:+ "-track") "Song" ["Artist"]
                          (Some "Album") None None])
    (fun _ _ => Ok tt)
    (fun track => Ok (Some (mkTrack (service_value service +:+ "-" +:+ title track)
                                    (title track) (artists track) (album track) None None))).

Definition test_connectors (service : ServiceType) : option Connector :=
  match service with
  | SPOTIFY => Some (FakeConnector SPOTIFY true)
  | APPLE_MUSIC => Some (FakeConnector APPLE_MUSIC true)
  | YOUTUBE_MUSIC => None
  end.

Definition test_group : SyncGroup :=
  mkGroup "g1" "Mirror" SPOTIFY [(SPOTIFY, "spotify-1"); (APPLE_MUSIC, "apple_music-1")].

Definition empty_state : State := mkState ∅ [].

(** The state after [create_group] of [test_group], with a fresh log. *)
Definition test_state : State := mkState (store (save_groups [test_group] empty_state).2) [].

(** The group with the new mapping. *)
Definition with_playlists (g : SyncGroup) (playlists' : list (ServiceType * string)) : SyncGroup :=
  mkGroup (group_id g) (name g) (primary_service g) playlists'.

(** ** Reading the log *)

Definition replace_call (ev : Event) : option (ServiceType * string * list Track) :=
  match ev with
  | EvReplaceTracks service playlist_id tracks => Some (service, playlist_id, tracks)
  | _ => None
  end.

(** The [replace_tracks] calls among the events, oldest first. *)
Definition replace_calls (evs : list Event) : list (ServiceType * string * list Track) :=
  omap replace_call evs.

Definition is_store_write (ev : Event) : bool :=
  match ev with
  | EvStorageSet _ _ | EvStorageDelete _ => true
  | _ => false
  end.

(** Reads and writes of playlists on a service. *)
Definition is_playlist_io (ev : Event) : bool :=
  match ev with
  | EvListTracks _ _ | EvSearchTrack _ _ | EvReplaceTracks _ _ _ => true
  | _ => false
  end.

(** The state after some more calls that wrote nothing. *)
Definition after_calls (st : State) (calls : list Event) : State :=
  mkState (store st) (log st ++ calls).

(** The tracks that the searches of one target find, in source order. *)
Definition matched (connector : Connector) (tracks : list Track) : list Track :=
  omap (fun track => match search_track connector track with
                     | Ok found => found
                     | Raise _ => None
                     end) tracks.

(** The connector of an entry of the mapping that is a target: not the
    primary service, registered, and with its token ready. *)
Definition eligible (connectors : ServiceType -> option Connector) (group : SyncGroup)
    (entry : ServiceType * string) : option Connector :=
  if decide (entry.1 = primary_service group) then None
  else match connectors entry.1 with
       | Some connector =>
           match token_ready connector with
           | Ok true => Some connector
           | _ => None
           end
       | None => None
       end.

(** The state in which the digest is compared with the snapshot. *)
Definition compared (group : SyncGroup) (playlist_id : string) (st : State) : State :=
  after_calls st [EvTokenReady (primary_service group);
                  EvListTracks (primary_service group) playlist_id;
                  EvStorageGet (snapshot_key group)].

(** A step that ends without touching a target or the store. *)
Definition quiet_step (connectors : ServiceType -> option Connector) (group : SyncGroup)
    (st : State) : Prop :=
  exists calls,
    _sync_group connectors group st = (Ok tt, after_calls st calls)
    /\ replace_calls calls = []
    /\ Forall (fun ev => is_store_write ev = false) calls.

(** The [replace_tracks] calls that the entries of a mapping ask for: one
    for every target, with what its searches found. *)
Definition target_calls (connectors : ServiceType -> option Connector) (group : SyncGroup)
    (tracks : list Track) (entries : list (ServiceType * string))
    : list (ServiceType * string * list Track) :=
  omap (fun entry => connector ← eligible connectors group entry;
                     Some (entry.1, entry.2, matched connector tracks)) entries.

(** A turn of the loop during which nobody calls [stop]. *)
Definition undisturbed (tick : Tick) : Prop :=
  stop_during_pass tick = false /\ stop_during_wait tick = false.

(** ** Sorted objects and normal stores *)

(** The members of an object come by increasing key. *)
Fixpoint sorted_members {A} (l : list (string * A)) : Prop :=
  match l with
  | [] => True
  | kv :: r =>
      match r with
      | [] => True
      | kv' :: _ => String.leb kv.1 kv'.1 = true
      end /\ sorted_members r
  end.

(** Every value of the store is as [json.loads] reads it back from a file
    written with [sort_keys=True]. *)
Definition normal (st : State) : Prop :=
  forall key value, store st !! key = Some value -> sort_keys value = value.

(** A step that leaves the store as it finds it, whatever it returns. *)
Definition keeps_store {A} (m : M A) : Prop :=
  forall st, store (m st).2 = store st.

(** ** Reading the digest input back *)

(** The fields of a track that enter the digest. *)
Definition digest_fields (t : Track)
    : string * string * list string * option string * option string :=
  (track_id t, title t, artists t, album t, isrc t).

(** The text that [_tracks_digest] hashes. *)
Definition digest_input (tracks : list Track) : string :=
  dumps (JArr (map track_payload tracks)).

(** The value of a hexadecimal digit. *)
Definition unhex (c : ascii) : nat :=
  let n := nat_of_ascii c in if (n <? 58)%nat then n - 48 else n - 87.

(** One step of the scanner of a string literal: the character that the
    text starts with and the text after it; nothing at the closing quote. *)
Definition decode_char (s : string) : option (ascii * string) :=
  match s with
  | EmptyString => None
  | String c r =>
      if Ascii.eqb c dquote then None
      else if Ascii.eqb c backslash then
        match r with
        | EmptyString => None
        | String e r' =>
            if Ascii.eqb e "u" then
              match r' with
              | String _ (String _ (String h (String l r''))) =>
                  Some (ascii_of_nat (16 * unhex h + unhex l), r'')
              | _ => None
              end
            else if Ascii.eqb e "n" then Some ("010"%char, r')
            else if Ascii.eqb e "r" then Some ("013"%char, r')
            else if Ascii.eqb e "t" then Some ("009"%char, r')
            else if Ascii.eqb e "b" then Some ("008"%char, r')
            else if Ascii.eqb e "f" then Some ("012"%char, r')
            else Some (e, r')
        end
      else Some (c, r)
  end.

(** What follows the first item of a list: the other items, each after a
    separator, and the closing bracket. *)
Fixpoint items_tail {A} (enc : A -> string) (xs : list A) (rest : string) : string :=
  match xs with
  | [] => String "]" rest
  | x :: r => ", " +:+ enc x +:+ items_tail enc r rest
  end.

(** One track of the digest input. *)
Definition track_text (t : Track) : string := dumps_plain (sort_keys (track_payload t)).

(** A string of [n] hexadecimal digits. *)
Fixpoint hex_string (n : nat) (s : string) : Prop :=
  match n, s with
  | O, EmptyString => True
  | S m, String c r => In c SHA256.hex_alphabet /\ hex_string m r
  | _, _ => False
  end.

(** ** More scenarios *)

(** A group whose primary service has no connector in the test. *)
Definition tube_group : SyncGroup :=
  mkGroup "g2" "Tube" YOUTUBE_MUSIC [(YOUTUBE_MUSIC, "youtube-1"); (SPOTIFY, "spotify-2")].

(** A connector like [FakeConnector] whose [replace_tracks] fails. *)
Definition BrokenConnector (service : ServiceType) : Connector :=
  mkConnector
    (Ok true)
    (list_tracks (FakeConnector service true))
    (fun _ _ => Raise (ServiceError "replace failed"))
    (search_track (FakeConnector service true)).

Definition broken_connectors (service : ServiceType) : option Connector :=
  match service with
  | SPOTIFY => Some (FakeConnector SPOTIFY true)
  | APPLE_MUSIC => Some (BrokenConnector APPLE_MUSIC)
  | YOUTUBE_MUSIC => Some (FakeConnector YOUTUBE_MUSIC true)
  end.

(** A group with two targets, its mapping in the order of the state file. *)
Definition three_way_group : SyncGroup :=
  mkGroup "g3" "Three" SPOTIFY
    [(APPLE_MUSIC, "apple_music-1"); (SPOTIFY, "spotify-1"); (YOUTUBE_MUSIC, "youtube_music-1")].

(** The registry with [three_way_group] before [test_group]. *)
Definition three_way_state : State :=
  mkState (store (save_groups [three_way_group; test_group] empty_state).2) [].

(** The track that [FakeConnector] lists for Spotify. *)
Definition spotify_track : Track :=
  mkTrack "spotify-track" "Song" ["Artist"] (Some "Album") None None.

(** What the Apple Music [FakeConnector] finds for it. *)
Definition apple_track : Track :=
  mkTrack "apple_music-Song" "Song" ["Artist"] (Some "Album") None None.

(** The connectors of the test before Spotify is linked: the token of the
    primary service is not ready. *)
Definition unlinked_connectors (service : ServiceType) : option Connector :=
  match service with
  | SPOTIFY => Some (FakeConnector SPOTIFY false)
  | APPLE_MUSIC => Some (FakeConnector APPLE_MUSIC true)
  | YOUTUBE_MUSIC => None
  end.

(** A registry with the record of [test_group] and a record without a name. *)
Definition damaged_state : State :=
  mkState {["sync_groups" := JArr [sort_keys (to_dict test_group); JObj [("id", JStr "g2")]]]} [].

(** ** Settled groups and safe calls *)

(** The snapshot [v] lets the step of the group end without a write: the
    group is skipped, or [v] is the digest of what the source lists. *)
Definition settled (connectors : ServiceType -> option Connector) (group : SyncGroup)
    (v : option json) : Prop :=
  match connectors (primary_service group) with
  | None => True
  | Some connector =>
      match token_ready connector with
      | Raise _ => False
      | Ok false => True
      | Ok true =>
          match dict_get (playlists group) (primary_service group) with
          | None => True
          | Some playlist_id =>
              if String.eqb playlist_id EmptyString then True
              else match list_tracks connector playlist_id with
                   | Ok tracks => v = Some (JStr (_tracks_digest tracks))
                   | Raise _ => False
                   end
          end
      end
  end.

(** A call that the step of the group may make: [replace_tracks] only on a
    playlist that the mapping gives for a service other than the primary. *)
Definition safe_event (group : SyncGroup) (ev : Event) : Prop :=
  match ev with
  | EvReplaceTracks service playlist_id _ =>
      service <> primary_service group /\ (service, playlist_id) ∈ playlists group
  | EvStorageSet key _ => key = snapshot_key group
  | EvStorageDelete _ => False
  | _ => True
  end.

(** Every call of the step is one that [P] allows, however the step ends. *)
Definition emits {A} (P : Event -> Prop) (m : M A) : Prop :=
  forall st, exists calls, log (m st).2 = log st ++ calls /\ Forall P calls.


(** ** connectors: [search_track]

    [search_track] of the three connectors.  The request to the service is
    the parameter [search], which answers a query with the items of the
    response or raises; the handling of the access token before the request
    is not part of these definitions.  An item is kept as far as
    [search_track] reads it, a key that the item lacks being [None]. *)

Module Spotify.

Record Item := mkItem {
  item_id : string;
  item_name : option string;
  item_artists : list string;
  item_album : option string;
  item_isrc : option string;
  item_duration_ms : option Z
}.

(** The query: title, artists and album, as far as the track has them. *)
Definition query (track : Track) : string :=
  join " " ([title track]
            ++ match artists track with [] => [] | _ => [join " " (artists track)] end
            ++ match album track with
               | Some a => if String.eqb a EmptyString then [] else [a]
               | None => []
               end).

(** The [Track] built of an item. *)
Definition candidate (item : Item) : Track :=
  mkTrack (item_id item) (default EmptyString (item_name item)) (item_artists item)
          (item_album item) (item_isrc item) (item_duration_ms item).

(** The loop over the items. *)
Fixpoint first_match (items : list Item) (track : Track) : option Track :=
  match items with
  | [] => None
  | item :: rest =>
      if signature_match (candidate item) track then Some (candidate item)
      else first_match rest track
  end.

Definition search_track (search : string -> Result (list Item)) (track : Track)
    : Result (option Track) :=
  items ← search (query track);
  mret (match first_match items track with
        | Some found => Some found
        | None =>
            match items with
            | item :: _ => Some (candidate item)
            | [] => None
            end
        end).

End Spotify.

Module AppleMusic.

Record Song := mkSong {
  song_id : string;
  song_name : option string;
  song_artistName : option string;
  song_albumName : option string;
  song_isrc : option string;
  song_durationInMillis : option Z
}.

Definition query (track : Track) : string :=
  join " " ([title track]
            ++ match artists track with [] => [] | _ => [join " " (artists track)] end
            ++ match album track with
               | Some a => if String.eqb a EmptyString then [] else [a]
               | None => []
               end).

Definition candidate (item : Song) : Track :=
  mkTrack (song_id item) (default EmptyString (song_name item))
          match song_artistName item with
          | Some a => if String.eqb a EmptyString then [] else [a]
          | None => []
          end
          (song_albumName item) (song_isrc item) (song_durationInMillis item).

Fixpoint first_match (songs : list Song) (track : Track) : option Track :=
  match songs with
  | [] => None
  | item :: rest =>
      if signature_match (candidate item) track then Some (candidate item)
      else first_match rest track
  end.

Definition search_track (search : string -> Result (list Song)) (track : Track)
    : Result (option Track) :=
  songs ← search (query track);
  mret (match first_match songs track with
        | Some found => Some found
        | None =>
            match songs with
            | item :: _ => Some (candidate item)
            | [] => None
            end
        end).

End AppleMusic.

Module YouTubeMusic.

Record Video := mkVideo {
  video_videoId : option string;
  video_title : option string;
  video_channelTitle : option string
}.

Definition query (track : Track) : string :=
  join " " ([title track]
            ++ match artists track with [] => [] | _ => [join " " (artists track)] end).

Definition candidate (item : Video) : Track :=
  mkTrack (default EmptyString (video_videoId item)) (default EmptyString (video_title item))
          match video_channelTitle item with
          | Some a => if String.eqb a EmptyString then [] else [a]
          | None => []
          end
          None None None.

Definition search_track (search : string -> Result (list Video)) (track : Track)
    : Result (option Track) :=
  items ← search (query track);
  mret (match items with
        | [] => None
        | item :: _ => Some (candidate item)
        end).

End YouTubeMusic.

(** ** Case folding and matching, as the specification words them *)

(** The capital letters among the code points below 256 and, at the same
    positions, their small letters. *)
Definition capital_letters : list ascii :=
  list_ascii_of_string "ABCDEFGHIJKLMNOPQRSTUVWXYZ"
  ++ map ascii_of_nat (seq 192 23 ++ seq 216 7).

Definition small_letters : list ascii :=
  list_ascii_of_string "abcdefghijklmnopqrstuvwxyz"
  ++ map ascii_of_nat (seq 224 23 ++ seq 248 7).

Fixpoint small_letter_of (capitals smalls : list ascii) (c : ascii) : ascii :=
  match capitals, smalls with
  | capital :: capitals', small :: smalls' =>
      if Ascii.eqb c capital then small else small_letter_of capitals' smalls' c
  | _, _ => c
  end.

(** A text with every capital letter replaced by its small letter. *)
Fixpoint case_folded (s : string) : string :=
  match s with
  | EmptyString => EmptyString
  | String c r => String (small_letter_of capital_letters small_letters c) (case_folded r)
  end.

(** The result that a search prefers for a track: the first one with the
    signature of the track and, when no result has it, the first one. *)
Definition preferred {Item : Type} (candidate : Item -> Track) (items : list Item)
    (track : Track) : option Track :=
  match list_find (fun item => normalized_signature (candidate item) = normalized_signature track)
                  items with
  | Some (_, item) => Some (candidate item)
  | None => candidate <$> head items
  end.

(** ** A search that finds another song

    A group mirrored from Apple Music to Spotify, where the search of the
    song that the source lists finds only a remix of it. *)

Definition remix_source : Track :=
  mkTrack "apple_music-track" "Song" ["Artist"] (Some "Album") None None.

Definition remix_item : Spotify.Item :=
  Spotify.mkItem "track-7" (Some "Song (Remix)") ["Artist"] (Some "Album") None (Some 215000%Z).

Definition remix_connectors (service : ServiceType) : option Connector :=
  match service with
  | APPLE_MUSIC => Some (FakeConnector APPLE_MUSIC true)
  | SPOTIFY =>
      Some (mkConnector (Ok true) (fun _ => Ok []) (fun _ _ => Ok tt)
              (Spotify.search_track (fun _ => Ok [remix_item])))
  | YOUTUBE_MUSIC => None
  end.

Definition remix_group : SyncGroup :=
  mkGroup "g4" "Remix" APPLE_MUSIC [(APPLE_MUSIC, "apple_music-1"); (SPOTIFY, "spotify-1")].

(** ** Test vectors *)

Example normalized_signature_song :
  normalized_signature (mkTrack "s1" "Song" ["The Artist"; "B"] (Some "Album") None None)
  = "song|the artist b|album".
Proof. reflexivity. Qed.

Example dumps_example :
  dumps (JArr [JObj [("id", JStr "s1"); ("album", JNull); ("artists", JArr [JStr "A"; JStr "B"])]])
  = String.concat EmptyString
      ["[{"; String dquote "album"; String dquote ": null, ";
       String dquote "artists"; String dquote ": [";
       String dquote "A"; String dquote ", "; String dquote "B"; String dquote "], ";
       String dquote "id"; String dquote ": "; String dquote "s1"; String dquote "}]"].
Proof. reflexivity. Qed.

Example hexdigest_abc :
  SHA256.hexdigest "abc" = "ba7816bf8f01cfea414140de5dae2223b00361a396177a9cb410ff61f20015ad".
Proof. vm_compute. reflexivity. Qed.

Example hexdigest_empty :
  SHA256.hexdigest EmptyString = "e3b0c44298fc1c149afbf4c8996fb92427ae41e4649b934ca495991b7852b855".
Proof. vm_compute. reflexivity. Qed.

Example hexdigest_two_blocks :
  SHA256.hexdigest "aaaaaaaaaaaaaaaaaaaaaaaaaaaaaaaaaaaaaaaaaaaaaaaaaaaaaaaaaaaaaaaaaaaaaa"
  = "6bd5e5034855a11241f0dee8fc72850ffd9955b28347a86428b5fa19119f6ad0".
Proof. vm_compute. reflexivity. Qed.

Example tracks_digest_single :
  _tracks_digest [mkTrack "s1" "Song" ["Artist"] (Some "Album") None None]
  = "fd655ddc181aebe6165e030633b7719822335fea8f236aaf40557fe83a486b11".
Proof. vm_compute. reflexivity. Qed.

Example tracks_digest_empty :
  _tracks_digest [] = "4f53cda18c2baa0c0354bb5f9a3ecbe5ed12ab4d8e11ba873c2f11161202b945".
Proof. vm_compute. reflexivity. Qed.


(** ** Properties of the model types *)

Lemma service_of_value_value (s : ServiceType) : service_of_value (service_value s) = Some s.
Proof. by destruct s. Qed.

#[global] Instance service_value_inj : Inj (=) (=) service_value.
Proof.
  intros s1 s2 Heq.
  assert (Some s1 = Some s2) as [= ->]; last done.
  by rewrite <- !service_of_value_value, Heq.
Qed.

Lemma lower_char_idemp (c : ascii) : lower_char (lower_char c) = lower_char c.
Proof. destruct c as [[] [] [] [] [] [] [] []]; reflexivity. Qed.

Lemma lower_idemp (s : string) : lower (lower s) = lower s.
Proof. induction s as [|c s IH]; simpl; [done|]. by rewrite lower_char_idemp, IH. Qed.

(** ** Dictionaries *)

Section DictFacts.
Context {K V : Type} `{EqDecision K}.
Implicit Types (d : list (K * V)) (k : K) (v : V).

Lemma dict_get_None d k : k ∉ d.*1 -> dict_get d k = None.
Proof.
  induction d as [|[k' v'] d IH]; simpl; [done|].
  intros Hk. apply not_elem_of_cons in Hk as [Hne Hk].
  rewrite decide_False by done. auto.
Qed.

Lemma dict_get_Some d k v : dict_wf d -> (k, v) ∈ d -> dict_get d k = Some v.
Proof.
  unfold dict_wf. induction d as [|[k' v'] d IH]; simpl.
  - by intros _ ?%elem_of_nil.
  - intros [Hk' Hwf]%NoDup_cons [[= -> ->]|Hin]%elem_of_cons.
    + by rewrite decide_True.
    + rewrite decide_False; [auto|].
      intros ->. apply Hk'. by apply (list_elem_of_fmap_2 fst) in Hin.
Qed.

Lemma dict_get_elem_of d k v : dict_get d k = Some v -> (k, v) ∈ d.
Proof.
  induction d as [|[k' v'] d IH]; simpl; [done|].
  destruct (decide (k = k')) as [->|]; [intros [= ->]; left|right; auto].
Qed.

(** Dictionaries with the same entries in another order are equal. *)
Lemma dict_equal_perm d1 d2 : dict_wf d1 -> d1 ≡ₚ d2 -> dict_equal d1 d2.
Proof.
  intros Hwf Hp k.
  assert (dict_wf d2) as Hwf2 by (unfold dict_wf in *; by rewrite <- Hp).
  destruct (dict_get d1 k) as [v|] eqn:Hg.
  - symmetry. apply dict_get_Some; [done|]. rewrite <- Hp. by apply dict_get_elem_of.
  - destruct (dict_get d2 k) as [v|] eqn:Hg2; [|done].
    apply dict_get_elem_of in Hg2. rewrite <- Hp in Hg2.
    by rewrite (dict_get_Some d1 k v) in Hg.
Qed.

Lemma dict_set_fresh d k v : k ∉ d.*1 -> dict_set d k v = d ++ [(k, v)].
Proof.
  induction d as [|[k' v'] d IH]; simpl; [done|].
  intros [Hne Hk]%not_elem_of_cons. rewrite decide_False by done. by rewrite IH.
Qed.

Lemma dict_fold_wf (items acc : list (K * V)) :
  dict_wf (acc ++ items) ->
  fold_left (fun d kv => dict_set d kv.1 kv.2) items acc = acc ++ items.
Proof.
  revert acc. induction items as [|[k v] items IH]; intros acc Hwf; simpl.
  - by rewrite app_nil_r.
  - rewrite dict_set_fresh.
    + rewrite IH; rewrite <- app_assoc; done.
    + unfold dict_wf in Hwf. rewrite fmap_app, fmap_cons in Hwf.
      apply NoDup_app in Hwf as (_ & Hdisj & _).
      intros Hin. apply (Hdisj _ Hin). left.
Qed.

(** A comprehension over distinct keys lists its items as they come. *)
Lemma dict_of_items_wf (items : list (K * V)) : dict_wf items -> dict_of_items items = items.
Proof. intros Hwf. unfold dict_of_items. by rewrite dict_fold_wf. Qed.
End DictFacts.

(** ** Steps of the monads *)

Lemma bind_Ok {A B} (f : A -> Result B) (a : A) : Ok a ≫= f = f a.
Proof. reflexivity. Qed.

Lemma bind_Raise {A B} (f : A -> Result B) (e : exn) : Raise e ≫= f = Raise e.
Proof. reflexivity. Qed.

(** ** Sorting the members of an object *)

Lemma insert_member_perm {A} (kv : string * A) l : insert_member kv l ≡ₚ kv :: l.
Proof.
  induction l as [|kv' l IH]; simpl; [done|].
  destruct (String.leb _ _); [done|]. rewrite IH. apply Permutation_swap.
Qed.

Lemma sort_members_perm {A} (l : list (string * A)) : sort_members l ≡ₚ l.
Proof.
  induction l as [|kv l IH]; simpl; [done|].
  rewrite insert_member_perm. by rewrite IH.
Qed.

(** ** [to_dict] and [from_dict] *)

Lemma playlist_member_keys (pl : list (ServiceType * string)) :
  (playlist_member <$> pl).*1 = service_value <$> pl.*1.
Proof. induction pl as [|[s p] pl IH]; [done|]. rewrite !fmap_cons. by rewrite IH. Qed.

Lemma playlist_member_wf (pl : list (ServiceType * string)) :
  dict_wf pl -> dict_wf (playlist_member <$> pl).
Proof.
  unfold dict_wf. intros Hwf. rewrite playlist_member_keys.
  by apply (NoDup_fmap_2 service_value).
Qed.

#[global] Instance playlist_member_inj : Inj (=) (=) playlist_member.
Proof.
  intros [s1 p1] [s2 p2]. unfold playlist_member. simpl.
  intros [= Hs ->]. by apply service_value_inj in Hs as ->.
Qed.

(** Parsing the wire form of distinct services gives the entries back in
    the order of the wire form. *)
Lemma playlists_of_items_wf (pl acc : list (ServiceType * string)) :
  dict_wf (acc ++ pl) ->
  playlists_of_items (playlist_member <$> pl) acc = Ok (acc ++ pl).
Proof.
  revert acc. induction pl as [|[s p] pl IH]; intros acc Hwf; simpl.
  - by rewrite app_nil_r.
  - rewrite service_of_value_value. simpl.
    rewrite dict_set_fresh.
    + rewrite IH; rewrite <- app_assoc; done.
    + unfold dict_wf in Hwf. rewrite fmap_app, fmap_cons in Hwf.
      apply NoDup_app in Hwf as (_ & Hdisj & _).
      intros Hin. apply (Hdisj _ Hin). left.
Qed.

Lemma truthy_members (members : list (string * json)) :
  (if truthy (JObj members) then JObj members else JObj []) = JObj members.
Proof. by destruct members. Qed.

Lemma from_dict_to_dict (g : SyncGroup) :
  dict_wf (playlists g) -> from_dict (to_dict g) = Ok g.
Proof.
  intros Hwf. destruct g as [id nm prim pl]. simpl in Hwf.
  unfold from_dict, to_dict. simpl group_id. simpl name. simpl primary_service.
  simpl playlists.
  change (map (fun sp : ServiceType * string => (service_value sp.1, JStr sp.2)) pl)
    with (playlist_member <$> pl).
  rewrite (dict_of_items_wf (playlist_member <$> pl)) by by apply playlist_member_wf.
  change (json_get _ "playlists") with (Ok (A:=option json) (Some (JObj (playlist_member <$> pl)))).
  rewrite bind_Ok, truthy_members. cbn [json_items].
  rewrite bind_Ok, (playlists_of_items_wf pl []) by done.
  rewrite bind_Ok.
  change (json_item _ "id") with (Ok (JStr id)).
  change (json_item _ "name") with (Ok (JStr nm)).
  change (json_item _ "primary_service") with (Ok (JStr (service_value prim))).
  rewrite !bind_Ok. cbn [as_str service_type]. rewrite !bind_Ok.
  by rewrite service_of_value_value.
Qed.

Lemma insert_playlist_member sp (l : list (ServiceType * string)) :
  insert_member (playlist_member sp) (playlist_member <$> l)
  = playlist_member <$> insert_playlist sp l.
Proof.
  induction l as [|sp' l IH]; [done|].
  rewrite fmap_cons. simpl insert_member. simpl insert_playlist.
  destruct (String.leb _ _); [done|]. by rewrite IH.
Qed.

Lemma sort_playlists_member (l : list (ServiceType * string)) :
  sort_members (playlist_member <$> l) = playlist_member <$> sort_playlists l.
Proof.
  induction l as [|sp l IH]; [done|].
  rewrite fmap_cons. simpl sort_members. simpl sort_playlists.
  fold (sort_members (playlist_member <$> l)). fold (sort_playlists l).
  by rewrite IH, insert_playlist_member.
Qed.

Lemma insert_playlist_perm sp l : insert_playlist sp l ≡ₚ sp :: l.
Proof.
  induction l as [|sp' l IH]; simpl; [done|].
  destruct (String.leb _ _); [done|]. rewrite IH. apply Permutation_swap.
Qed.

Lemma sort_playlists_perm l : sort_playlists l ≡ₚ l.
Proof.
  induction l as [|sp l IH]; simpl; [done|].
  rewrite insert_playlist_perm. by rewrite IH.
Qed.

Lemma sort_playlists_wf l : dict_wf l -> dict_wf (sort_playlists l).
Proof. unfold dict_wf. by rewrite sort_playlists_perm. Qed.

Lemma sort_keys_playlist_members (pl : list (ServiceType * string)) :
  map (fun kv : string * json => (kv.1, sort_keys kv.2)) (playlist_member <$> pl)
  = playlist_member <$> pl.
Proof. induction pl as [|sp pl IH]; [done|]. rewrite fmap_cons. simpl. by rewrite IH. Qed.

(** What [from_dict] reads from the stored form of a group. *)
Lemma from_dict_stored (g : SyncGroup) :
  dict_wf (playlists g) -> from_dict (sort_keys (to_dict g)) = Ok (stored_group g).
Proof.
  intros Hwf. destruct g as [id nm prim pl]. simpl in Hwf.
  unfold stored_group, to_dict. simpl group_id. simpl name. simpl primary_service.
  simpl playlists.
  change (map (fun sp : ServiceType * string => (service_value sp.1, JStr sp.2)) pl)
    with (playlist_member <$> pl).
  rewrite (dict_of_items_wf (playlist_member <$> pl)) by by apply playlist_member_wf.
  change (sort_keys (JObj ?m)) with
    (JObj (sort_members (map (fun kv : string * json => (kv.1, sort_keys kv.2)) m))).
  change (from_dict ?x) with
    (from_dict (JObj [("id", JStr id); ("name", JStr nm);
       ("playlists", JObj (sort_members
          (map (fun kv : string * json => (kv.1, sort_keys kv.2)) (playlist_member <$> pl))));
       ("primary_service", JStr (service_value prim))])).
  rewrite sort_keys_playlist_members, sort_playlists_member.
  unfold from_dict.
  change (json_get _ "playlists")
    with (Ok (A:=option json) (Some (JObj (playlist_member <$> sort_playlists pl)))).
  rewrite bind_Ok, truthy_members. cbn [json_items].
  rewrite bind_Ok, (playlists_of_items_wf (sort_playlists pl) [])
    by by apply sort_playlists_wf.
  rewrite bind_Ok.
  change (json_item _ "id") with (Ok (JStr id)).
  change (json_item _ "name") with (Ok (JStr nm)).
  change (json_item _ "primary_service") with (Ok (JStr (service_value prim))).
  rewrite !bind_Ok. cbn [as_str service_type]. rewrite !bind_Ok.
  by rewrite service_of_value_value.
Qed.

Lemma stored_group_equal (g : SyncGroup) :
  dict_wf (playlists g) -> group_equal g (stored_group g).
Proof.
  intros Hwf. repeat split. simpl.
  apply dict_equal_perm; [done|]. by rewrite sort_playlists_perm.
Qed.

(** ** The group registry *)

Lemma load_groups_unfold (st : State) :
  load_groups st
  = (json_iter (from_option id (JArr []) (store st !! "sync_groups")) ≫= map_result from_dict,
     record (EvStorageGet "sync_groups") st).
Proof. reflexivity. Qed.

Lemma save_groups_unfold (groups : list SyncGroup) (st : State) :
  save_groups groups st
  = (Ok tt, mkState (sort_keys <$> <["sync_groups" := JArr (map to_dict groups)]> (store st))
                    (log st ++ [EvStorageSet "sync_groups" (JArr (map to_dict groups))])).
Proof. reflexivity. Qed.

Lemma save_groups_lookup (groups : list SyncGroup) (st : State) :
  store (save_groups groups st).2 !! "sync_groups"
  = Some (JArr (map sort_keys (map to_dict groups))).
Proof. rewrite save_groups_unfold. simpl. by rewrite lookup_fmap, lookup_insert_eq. Qed.

Lemma map_result_stored (groups : list SyncGroup) :
  Forall (fun g => dict_wf (playlists g)) groups ->
  map_result from_dict (map sort_keys (map to_dict groups)) = Ok (stored_group <$> groups).
Proof.
  induction 1 as [|g groups Hg _ IH]; [done|].
  cbn [map map_result]. rewrite from_dict_stored by done.
  rewrite bind_Ok, IH. reflexivity.
Qed.

(** Groups written by [save_groups] are read back in their stored form. *)
Lemma load_after_save (groups : list SyncGroup) (st : State) :
  Forall (fun g => dict_wf (playlists g)) groups ->
  (load_groups (save_groups groups st).2).1 = Ok (stored_group <$> groups).
Proof.
  intros Hwf. rewrite load_groups_unfold. cbn [fst].
  rewrite save_groups_lookup. cbn [from_option id json_iter].
  rewrite bind_Ok. by apply map_result_stored.
Qed.

(** C10. A group whose mapping is a dictionary over the services survives
    [to_dict] followed by [from_dict] unchanged, and a list of such groups
    written by [save_groups] is read back by [load_groups] as groups equal
    to the originals (same id, name, primary service and mapping). *)
Theorem sync_group_roundtrip :
  forall (g : SyncGroup) (groups : list SyncGroup) (st : State),
    dict_wf (playlists g) ->
    Forall (fun g => dict_wf (playlists g)) groups ->
    from_dict (to_dict g) = Ok g
    /\ exists loaded,
         (load_groups (save_groups groups st).2).1 = Ok loaded
         /\ Forall2 group_equal groups loaded.
Proof.
  intros g groups st Hg Hgroups. split; [by apply from_dict_to_dict|].
  exists (stored_group <$> groups). split; [by apply load_after_save|].
  apply Forall2_fmap_r, Forall_Forall2_diag.
  eapply Forall_impl; [exact Hgroups|]. intros g'. apply stored_group_equal.
Qed.

Lemma test_group_wf : dict_wf (playlists test_group).
Proof. unfold dict_wf. apply (bool_decide_unpack _). by vm_compute. Qed.

Lemma sync_group_roundtrip_witness :
  dict_wf (playlists test_group)
  /\ from_dict (to_dict test_group) = Ok test_group
  /\ exists loaded,
       (load_groups (save_groups [test_group] empty_state).2).1 = Ok loaded
       /\ Forall2 group_equal [test_group] loaded.
Proof.
  split; [exact test_group_wf|].
  apply (sync_group_roundtrip test_group [test_group] empty_state).
  - exact test_group_wf.
  - apply Forall_cons. split; [exact test_group_wf|apply Forall_nil_2].
Defined.

(** ** [update_group] *)

Lemma bind_Ok_inv {A B} (m : Result A) (f : A -> Result B) (b : B) :
  m ≫= f = Ok b -> exists a, m = Ok a /\ f a = Ok b.
Proof. destruct m as [a|e]; [by exists a|done]. Qed.

Lemma dict_set_keys {K V} `{EqDecision K} (d : list (K * V)) k v :
  (dict_set d k v).*1 = if decide (k ∈ d.*1) then d.*1 else d.*1 ++ [k].
Proof.
  induction d as [|[k' v'] d IH].
  - destruct (decide (k ∈ ([] : list (K * V)).*1)) as [Hin|_]; [|done].
    by apply elem_of_nil in Hin.
  - cbn [dict_set]. rewrite fmap_cons. cbn [fst].
    destruct (decide (k = k')) as [->|Hne].
    + rewrite fmap_cons. cbn [fst]. rewrite decide_True; [done|]. left.
    + rewrite fmap_cons, IH. cbn [fst].
      destruct (decide (k ∈ d.*1)) as [Hin|Hin].
      * rewrite decide_True; [done|]. by right.
      * rewrite decide_False; [done|]. by intros [?|?]%elem_of_cons.
Qed.

Lemma dict_set_wf {K V} `{EqDecision K} (d : list (K * V)) k v :
  dict_wf d -> dict_wf (dict_set d k v).
Proof.
  unfold dict_wf. rewrite dict_set_keys. intros Hwf.
  destruct (decide (k ∈ d.*1)) as [Hin|Hin]; [done|].
  apply NoDup_app. split_and!; [done| |apply NoDup_singleton].
  intros k' Hk' ->%list_elem_of_singleton. done.
Qed.

Lemma playlists_of_items_dict (items : list (string * json)) acc r :
  playlists_of_items items acc = Ok r -> dict_wf acc -> dict_wf r.
Proof.
  revert acc. induction items as [|[s p] items IH]; intros acc; simpl.
  - by intros [= ->].
  - intros (s' & _ & (p' & _ & Hr)%bind_Ok_inv)%bind_Ok_inv Hwf.
    eapply IH; [exact Hr|]. by apply dict_set_wf.
Qed.

(** Every group that [from_dict] builds has a dictionary for its mapping. *)
Lemma from_dict_wf (payload : json) (g : SyncGroup) :
  from_dict payload = Ok g -> dict_wf (playlists g).
Proof.
  unfold from_dict.
  intros (raw & _ & (items & _ & (pl & Hpl & H)%bind_Ok_inv)%bind_Ok_inv)%bind_Ok_inv.
  apply bind_Ok_inv in H as (id & _ & (nm & _ & (prim & _ & [= <-])%bind_Ok_inv)%bind_Ok_inv).
  simpl. eapply playlists_of_items_dict; [exact Hpl|]. apply NoDup_nil_2.
Qed.

Lemma map_result_Forall {A B} (f : A -> Result B) (P : B -> Prop) xs ys :
  (forall x y, f x = Ok y -> P y) -> map_result f xs = Ok ys -> Forall P ys.
Proof.
  intros Hf. revert ys. induction xs as [|x xs IH]; intros ys; simpl.
  - intros [= <-]. constructor.
  - intros (y & Hy & (ys' & Hys & [= <-])%bind_Ok_inv)%bind_Ok_inv.
    constructor; eauto.
Qed.

Lemma load_groups_wf (st : State) (groups : list SyncGroup) :
  (load_groups st).1 = Ok groups -> Forall (fun g => dict_wf (playlists g)) groups.
Proof.
  rewrite load_groups_unfold. cbn [fst].
  intros (items & _ & Hm)%bind_Ok_inv.
  eapply map_result_Forall; [|exact Hm]. apply from_dict_wf.
Qed.

Lemma load_groups_state (st : State) :
  (load_groups st).2 = record (EvStorageGet "sync_groups") st.
Proof. reflexivity. Qed.

Lemma update_group_loop_spec groups rest idx gid pl' (st : State) :
  update_group_loop groups idx rest gid pl' st
  = match list_find (fun g => group_id g = gid) rest with
    | Some (k, g) =>
        (Ok (Some (with_playlists g pl')),
         (save_groups (<[idx + k := with_playlists g pl']> groups) st).2)
    | None => (Ok None, st)
    end.
Proof.
  revert idx. induction rest as [|g rest IH]; intros idx; [done|].
  cbn [update_group_loop list_find].
  destruct (decide (group_id g = gid)) as [Heq|Hne].
  - rewrite (proj2 (String.eqb_eq _ _) Heq). by rewrite Nat.add_0_r.
  - rewrite (proj2 (String.eqb_neq _ _) Hne). rewrite IH.
    destruct (list_find _ rest) as [[k g']|]; simpl; [|done].
    by rewrite Nat.add_succ_r.
Qed.

(** C8. Given the group list that [load_groups] reads from the store:
    if a group carries the id, [update_group] returns the first such group
    with the new mapping and its id, name and primary service unchanged, and
    the list then read from the store is the old list with that one group
    replaced (the others equal to what they were, nothing else in the store
    touched); if no group carries the id, it returns [None], and the store is
    left as it was, without a write. *)
Theorem update_group_spec :
  forall (st : State) (groups : list SyncGroup) (gid : string)
         (playlists' : list (ServiceType * string)),
    (load_groups st).1 = Ok groups ->
    dict_wf playlists' ->
    match list_find (fun g => group_id g = gid) groups with
    | Some (i, g) =>
        let g' := mkGroup (group_id g) (name g) (primary_service g) playlists' in
        exists st',
          update_group gid playlists' st = (Ok (Some g'), st')
          /\ (forall key, key <> "sync_groups" ->
                store st' !! key = sort_keys <$> store st !! key)
          /\ exists loaded,
               (load_groups st').1 = Ok loaded
               /\ Forall2 group_equal (<[i := g']> groups) loaded
    | None =>
        exists st',
          update_group gid playlists' st = (Ok None, st')
          /\ store st' = store st
          /\ log st' = log st ++ [EvStorageGet "sync_groups"]
    end.
Proof.
  intros st groups gid pl' Hload Hwf.
  pose proof (load_groups_wf _ _ Hload) as Hgroups.
  assert (update_group gid pl' st
          = update_group_loop groups 0 groups gid pl' (record (EvStorageGet "sync_groups") st))
    as Hup.
  { unfold update_group. unfold mbind at 1, M_bind.
    destruct (load_groups st) as [r st1] eqn:Hl.
    pose proof (load_groups_state st) as Hst. rewrite Hl in Hst. simpl in *.
    by subst. }
  rewrite Hup, update_group_loop_spec.
  destruct (list_find _ groups) as [[i g]|] eqn:Hfind.
  - fold (with_playlists g pl'). set (g' := with_playlists g pl').
    eexists. split; [reflexivity|]. split.
    + intros key Hkey. rewrite save_groups_unfold. simpl.
      by rewrite lookup_fmap, lookup_insert_ne.
    + exists (stored_group <$> <[i := g']> groups). simpl.
      assert (Forall (fun g => dict_wf (playlists g)) (<[i := g']> groups)) as Hwf'.
      { by apply Forall_insert. }
      split; [by apply load_after_save|].
      apply Forall2_fmap_r, Forall_Forall2_diag.
      eapply Forall_impl; [exact Hwf'|]. intros g0. apply stored_group_equal.
  - eexists. split; [reflexivity|]. done.
Qed.

Lemma update_group_spec_witness :
  (load_groups test_state).1 = Ok [stored_group test_group]
  /\ exists st',
    update_group "g1" [(SPOTIFY, "spotify-2")] test_state
    = (Ok (Some (mkGroup "g1" "Mirror" SPOTIFY [(SPOTIFY, "spotify-2")])), st')
    /\ (forall key, key <> "sync_groups" ->
          store st' !! key = sort_keys <$> store test_state !! key)
    /\ exists loaded,
         (load_groups st').1 = Ok loaded
         /\ Forall2 group_equal
              (<[0%nat := mkGroup "g1" "Mirror" SPOTIFY [(SPOTIFY, "spotify-2")]]>
                 [stored_group test_group]) loaded.
Proof.
  assert ((load_groups test_state).1 = Ok [stored_group test_group]) as Hload by by vm_compute.
  split; [exact Hload|].
  apply (update_group_spec test_state [stored_group test_group] "g1" [(SPOTIFY, "spotify-2")]).
  - exact Hload.
  - unfold dict_wf. apply (bool_decide_unpack _). by vm_compute.
Defined.

(** ** Steps of the engine *)

Lemma M_bind_unfold {A B} (m : M A) (f : A -> M B) (st : State) :
  (m ≫= f) st
  = match m st with
    | (Ok a, st') => f a st'
    | (Raise e, st') => (Raise e, st')
    end.
Proof. reflexivity. Qed.

Lemma after_calls_nil (st : State) : after_calls st [] = st.
Proof. destruct st as [s l]. unfold after_calls. simpl. by rewrite app_nil_r. Qed.

Lemma after_calls_app (st : State) (c1 c2 : list Event) :
  after_calls (after_calls st c1) c2 = after_calls st (c1 ++ c2).
Proof. unfold after_calls. simpl. by rewrite app_assoc. Qed.

Lemma record_after_calls (ev : Event) (st : State) : record ev st = after_calls st [ev].
Proof. reflexivity. Qed.

Lemma for_each_app {A} (body : A -> M unit) (xs ys : list A) (st : State) :
  for_each body (xs ++ ys) st
  = match for_each body xs st with
    | (Ok _, st') => for_each body ys st'
    | (Raise e, st') => (Raise e, st')
    end.
Proof.
  revert st. induction xs as [|x xs IH]; intros st; [done|].
  cbn [app for_each]. rewrite !M_bind_unfold.
  destruct (body x st) as [[[]|e] st']; [apply IH|done].
Qed.

Lemma replace_calls_app (c1 c2 : list Event) :
  replace_calls (c1 ++ c2) = replace_calls c1 ++ replace_calls c2.
Proof. apply omap_app. Qed.

Lemma replace_calls_search (service : ServiceType) (tracks : list Track) :
  replace_calls (EvSearchTrack service <$> tracks) = [].
Proof. induction tracks as [|t tracks IH]; [done|]. by rewrite fmap_cons. Qed.

Lemma matched_cons connector track tracks :
  matched connector (track :: tracks)
  = match search_track connector track with
    | Ok (Some m) => m :: matched connector tracks
    | _ => matched connector tracks
    end.
Proof. unfold matched. simpl. by destruct (search_track connector track) as [[m|]|e]. Qed.

(** The searches of one target: the answers are collected in source order,
    the misses are left out. *)
Lemma search_all_Ok connector service tracks acc st mapped st' :
  search_all connector service tracks acc st = (Ok mapped, st') ->
  mapped = acc ++ matched connector tracks
  /\ st' = after_calls st (EvSearchTrack service <$> tracks).
Proof.
  revert acc st. induction tracks as [|t tracks IH]; intros acc st; cbn [search_all].
  - intros [= <- <-]. by rewrite app_nil_r, after_calls_nil.
  - rewrite M_bind_unfold. unfold call at 1.
    destruct (search_track connector t) as [found|e] eqn:Hs; [|done].
    intros [-> ->]%IH. rewrite record_after_calls, after_calls_app. split; [|done].
    rewrite matched_cons, Hs.
    destruct found as [m|]; [by rewrite <- app_assoc|done].
Qed.

Lemma search_all_total connector service tracks acc st :
  Forall (fun t => exists found, search_track connector t = Ok found) tracks ->
  search_all connector service tracks acc st
  = (Ok (acc ++ matched connector tracks), after_calls st (EvSearchTrack service <$> tracks)).
Proof.
  intros Hall. revert acc st.
  induction Hall as [|t tracks [found Hs] _ IH]; intros acc st; cbn [search_all].
  - by rewrite app_nil_r, after_calls_nil.
  - rewrite M_bind_unfold. unfold call at 1. rewrite Hs, IH.
    rewrite record_after_calls, after_calls_app. f_equal. f_equal.
    rewrite matched_cons, Hs.
    destruct found as [m|]; [by rewrite <- app_assoc|done].
Qed.

(** The two branches of [_sync_targets] for a target are one: the searches
    of an empty source find nothing. *)
Lemma sync_target_eligible connectors group tracks service playlist_id connector st :
  eligible connectors group (service, playlist_id) = Some connector ->
  sync_target connectors group tracks (service, playlist_id) st
  = (search_all connector service tracks [] ≫= fun mapped_tracks =>
       call (EvReplaceTracks service playlist_id mapped_tracks)
            (replace_tracks connector playlist_id mapped_tracks))
      (record (EvTokenReady service) st).
Proof.
  unfold eligible, sync_target. cbn [fst snd].
  destruct (decide (service = primary_service group)) as [|Hne]; [done|].
  destruct (connectors service) as [c|]; [|done].
  destruct (token_ready c) as [[|]|e] eqn:Hready; [|done|done].
  intros [= ->]. rewrite M_bind_unfold. unfold call at 1.
  cbn [negb]. by destruct tracks.
Qed.

Lemma sync_target_skip connectors group tracks entry st st' :
  eligible connectors group entry = None ->
  sync_target connectors group tracks entry st = (Ok tt, st') ->
  exists calls, st' = after_calls st calls /\ replace_calls calls = [].
Proof.
  unfold eligible, sync_target.
  destruct (decide (entry.1 = primary_service group)) as [|Hne].
  { intros _ [= <-]. exists []. by rewrite after_calls_nil. }
  destruct (connectors entry.1) as [c|].
  2:{ intros _ [= <-]. exists []. by rewrite after_calls_nil. }
  rewrite M_bind_unfold. unfold call at 1.
  destruct (token_ready c) as [[|]|e]; [done| |done].
  intros _ [= <-]. by exists [EvTokenReady entry.1].
Qed.

(** What one entry of the mapping contributes when its step returns. *)
Lemma sync_target_Ok connectors group tracks entry st st' :
  sync_target connectors group tracks entry st = (Ok tt, st') ->
  exists calls,
    st' = after_calls st calls
    /\ replace_calls calls
       = match eligible connectors group entry with
         | Some connector => [(entry.1, entry.2, matched connector tracks)]
         | None => []
         end.
Proof.
  destruct (eligible connectors group entry) as [c|] eqn:Hel.
  - destruct entry as [s p]. rewrite (sync_target_eligible _ _ _ _ _ c) by done.
    rewrite M_bind_unfold.
    destruct (search_all c s tracks [] _) as [[mapped|e] st1] eqn:Hsearch; [|done].
    apply search_all_Ok in Hsearch as [-> ->]. unfold call.
    cbn [app]. intros [= _ <-].
    rewrite !record_after_calls, !after_calls_app. eexists. split; [done|].
    by rewrite !replace_calls_app, replace_calls_search.
  - intros H. by eapply sync_target_skip.
Qed.

Lemma sync_targets_Ok connectors group tracks entries st st' :
  for_each (sync_target connectors group tracks) entries st = (Ok tt, st') ->
  exists calls,
    st' = after_calls st calls
    /\ replace_calls calls
       = omap (fun entry => connector ← eligible connectors group entry;
                            Some (entry.1, entry.2, matched connector tracks)) entries.
Proof.
  revert st. induction entries as [|entry entries IH]; intros st; cbn [for_each].
  - intros [= <-]. exists []. by rewrite after_calls_nil.
  - rewrite M_bind_unfold.
    destruct (sync_target _ _ _ entry st) as [[[]|e] st1] eqn:Hentry; [|done].
    apply sync_target_Ok in Hentry as (c1 & -> & Hc1).
    intros (c2 & -> & Hc2)%IH. exists (c1 ++ c2).
    rewrite after_calls_app, replace_calls_app, Hc1, Hc2. split; [done|].
    destruct (eligible connectors group entry) as [c|] eqn:Hel; simpl; by rewrite Hel.
Qed.

Section Cycle.
Variable connectors : ServiceType -> option Connector.
Variables (group : SyncGroup) (connector : Connector) (playlist_id : string)
  (tracks : list Track).
Hypothesis Hconnector : connectors (primary_service group) = Some connector.
Hypothesis Hready : token_ready connector = Ok true.
Hypothesis Hsource : dict_get (playlists group) (primary_service group) = Some playlist_id.
Hypothesis Hnonempty : playlist_id <> EmptyString.
Hypothesis Htracks : list_tracks connector playlist_id = Ok tracks.

Lemma sync_group_fetch (st : State) :
  _sync_group connectors group st
  = if match from_option id JNull (store st !! snapshot_key group) with
       | JStr s => String.eqb s (_tracks_digest tracks)
       | _ => false
       end
    then (Ok tt, compared group playlist_id st)
    else (_sync_targets connectors group tracks ≫= fun _ =>
            storage_set (snapshot_key group) (JStr (_tracks_digest tracks)))
           (compared group playlist_id st).
Proof.
  unfold _sync_group. rewrite Hconnector, M_bind_unfold. unfold call at 1.
  rewrite Hready. cbn [negb]. rewrite Hsource.
  rewrite (proj2 (String.eqb_neq _ _) Hnonempty).
  rewrite M_bind_unfold. unfold call at 1. rewrite Htracks.
  rewrite M_bind_unfold. unfold storage_get at 1. cbn [store record].
  unfold compared, after_calls, record. cbn [store log]. rewrite <- !app_assoc. cbn [app].
  by destruct (match from_option id JNull _ with JStr s => _ | _ => false end).
Qed.

Lemma sync_group_unchanged (st : State) :
  store st !! snapshot_key group = Some (JStr (_tracks_digest tracks)) ->
  _sync_group connectors group st = (Ok tt, compared group playlist_id st).
Proof.
  intros Hsnap. rewrite sync_group_fetch, Hsnap. cbn [from_option id].
  by rewrite String.eqb_refl.
Qed.

Lemma sync_group_changed (st : State) :
  store st !! snapshot_key group <> Some (JStr (_tracks_digest tracks)) ->
  _sync_group connectors group st
  = (_sync_targets connectors group tracks ≫= fun _ =>
       storage_set (snapshot_key group) (JStr (_tracks_digest tracks)))
      (compared group playlist_id st).
Proof.
  intros Hsnap. rewrite sync_group_fetch.
  destruct (store st !! snapshot_key group) as [[| | |s| |]|] eqn:Hs; cbn [from_option id]; try done.
  destruct (String.eqb s _) eqn:Heq; [|done].
  apply String.eqb_eq in Heq as ->. done.
Qed.
End Cycle.

(** ** Groups that are skipped *)

Lemma sync_group_no_connector connectors group st :
  connectors (primary_service group) = None ->
  _sync_group connectors group st = (Ok tt, st).
Proof. intros Hc. unfold _sync_group. by rewrite Hc. Qed.

Lemma sync_group_no_source connectors group connector st :
  connectors (primary_service group) = Some connector ->
  token_ready connector <> Ok true
  \/ dict_get (playlists group) (primary_service group) = None
  \/ dict_get (playlists group) (primary_service group) = Some EmptyString ->
  _sync_group connectors group st
  = (token_ready connector ≫= fun _ => Ok tt, record (EvTokenReady (primary_service group)) st).
Proof.
  intros Hc Hskip. unfold _sync_group. rewrite Hc, M_bind_unfold. unfold call at 1.
  destruct (token_ready connector) as [[|]|e]; [|done|done].
  cbn [negb]. destruct Hskip as [?|[->| ->]]; done.
Qed.

(** X1. A group whose primary service has no registered connector, or whose
    primary connector answers [token_ready] with false, or whose mapping has
    no entry under the primary service, is left after at most the one
    [token_ready] question to the primary connector: no playlist is read,
    searched or replaced on any service, and the store is neither written
    nor changed.  The group's step returns normally unless that
    [token_ready] call itself raises. *)
Theorem sync_group_skip :
  forall (connectors : ServiceType -> option Connector) (group : SyncGroup) (st : State),
    (connectors (primary_service group) = None
     \/ (exists connector, connectors (primary_service group) = Some connector
                           /\ token_ready connector = Ok false)
     \/ dict_get (playlists group) (primary_service group) = None) ->
    exists calls,
      (_sync_group connectors group st).2 = after_calls st calls
      /\ (calls = [] \/ calls = [EvTokenReady (primary_service group)])
      /\ Forall (fun ev => is_playlist_io ev = false /\ is_store_write ev = false) calls
      /\ replace_calls calls = []
      /\ store (_sync_group connectors group st).2 = store st
      /\ (_sync_group connectors group st).1
         = match connectors (primary_service group) with
           | Some connector => token_ready connector ≫= fun _ => Ok tt
           | None => Ok tt
           end.
Proof.
  intros connectors group st Hskip.
  destruct (connectors (primary_service group)) as [c|] eqn:Hc.
  - exists [EvTokenReady (primary_service group)].
    rewrite (sync_group_no_source connectors group c); [|done|].
    + split_and!; try done. { by right. } by repeat constructor.
    + destruct Hskip as [?|[(c' & [= <-] & Hready)|?]];
        [done|left; by rewrite Hready|right; by left].
  - exists []. rewrite sync_group_no_connector by done.
    rewrite after_calls_nil. split_and!; try done. by left.
Qed.

(** ** Cycles with an unchanged source *)

Lemma sync_targets_state connectors group tracks st st' :
  _sync_targets connectors group tracks st = (Ok tt, st') -> store st' = store st.
Proof. unfold _sync_targets. by intros (calls & -> & _)%sync_targets_Ok. Qed.

(** After a cycle that went through the targets, the snapshot is the digest. *)
Lemma sync_group_persists connectors group tracks st st' :
  (_sync_targets connectors group tracks ≫= fun _ =>
     storage_set (snapshot_key group) (JStr (_tracks_digest tracks))) st = (Ok tt, st') ->
  store st' !! snapshot_key group = Some (JStr (_tracks_digest tracks)).
Proof.
  rewrite M_bind_unfold.
  destruct (_sync_targets connectors group tracks st) as [[[]|e] st1]; [|done].
  unfold storage_set. intros [= <-]. cbn [store].
  by rewrite lookup_fmap, lookup_insert_eq.
Qed.

Lemma sync_group_quiet_skip connectors group connector st (ready : bool) :
  connectors (primary_service group) = Some connector ->
  token_ready connector = Ok ready ->
  ready = false
  \/ dict_get (playlists group) (primary_service group) = None
  \/ dict_get (playlists group) (primary_service group) = Some EmptyString ->
  quiet_step connectors group st.
Proof.
  intros Hc Hready Hcase. exists [EvTokenReady (primary_service group)].
  rewrite (sync_group_no_source connectors group connector); [|done|].
  - rewrite Hready. split_and!; try done. by repeat constructor.
  - destruct Hcase as [->|[?|?]]; [left; by rewrite Hready|right; by left|right; by right].
Qed.

(** X2. When the digest of the track list just fetched from the source
    equals the group's stored snapshot, the group's step ends after the
    comparison: its only calls are [token_ready] and [list_tracks] on the
    primary connector and the read of the snapshot, so no [replace_tracks]
    call and no store write, and the store is unchanged.  Hence a second
    step of the same group right after one that returned, with the services
    answering as before, makes no [replace_tracks] call and no store write. *)
Theorem sync_group_idempotent :
  forall (connectors : ServiceType -> option Connector) (group : SyncGroup) (st : State),
    (forall connector playlist_id tracks,
        connectors (primary_service group) = Some connector ->
        token_ready connector = Ok true ->
        dict_get (playlists group) (primary_service group) = Some playlist_id ->
        playlist_id <> EmptyString ->
        list_tracks connector playlist_id = Ok tracks ->
        store st !! snapshot_key group = Some (JStr (_tracks_digest tracks)) ->
        _sync_group connectors group st
        = (Ok tt, after_calls st [EvTokenReady (primary_service group);
                                  EvListTracks (primary_service group) playlist_id;
                                  EvStorageGet (snapshot_key group)]))
    /\ (forall st1,
          _sync_group connectors group st = (Ok tt, st1) ->
          exists calls,
            _sync_group connectors group st1 = (Ok tt, after_calls st1 calls)
            /\ replace_calls calls = []
            /\ Forall (fun ev => is_store_write ev = false) calls).
Proof.
  intros connectors group st. split.
  { intros c pid tracks Hc Hready Hpid Hne Htracks Hsnap.
    by rewrite (sync_group_unchanged connectors group c pid tracks). }
  intros st1 Hfirst. fold (quiet_step connectors group st1).
  destruct (connectors (primary_service group)) as [c|] eqn:Hc.
  2:{ exists []. rewrite after_calls_nil. split; [by apply sync_group_no_connector|done]. }
  destruct (token_ready c) as [[|]|e] eqn:Hready.
  - destruct (dict_get (playlists group) (primary_service group)) as [pid|] eqn:Hpid.
    2:{ eapply sync_group_quiet_skip; [done|done|right; by left]. }
    destruct (decide (pid = EmptyString)) as [->|Hne].
    { eapply sync_group_quiet_skip; [done|done|right; by right]. }
    destruct (list_tracks c pid) as [tracks|e] eqn:Htracks.
    2:{ revert Hfirst. unfold _sync_group. rewrite Hc, M_bind_unfold. unfold call at 1.
        rewrite Hready. cbn [negb]. rewrite Hpid, (proj2 (String.eqb_neq _ _) Hne).
        rewrite M_bind_unfold. unfold call at 1. by rewrite Htracks. }
    assert (store st1 !! snapshot_key group = Some (JStr (_tracks_digest tracks))) as Hsnap.
    { revert Hfirst. rewrite (sync_group_fetch connectors group c pid tracks) by done.
      destruct (match from_option id JNull (store st !! snapshot_key group) with
                | JStr s => String.eqb s (_tracks_digest tracks)
                | _ => false
                end) eqn:Heq.
      - intros [= <-]. cbn [compared after_calls store].
        destruct (store st !! snapshot_key group) as [[| | |s| |]|]; try done.
        cbn [from_option id] in Heq. by apply String.eqb_eq in Heq as ->.
      - apply sync_group_persists. }
    eexists. rewrite (sync_group_unchanged connectors group c pid tracks) by done.
    split; [reflexivity|]. split; [done|]. by repeat constructor.
  - eapply sync_group_quiet_skip; [done|done|by left].
  - revert Hfirst.
    rewrite (sync_group_no_source connectors group c) by (try done; left; by rewrite Hready).
    by rewrite Hready.
Qed.

(** ** Cycles with a changed source *)

Lemma target_calls_empty connectors group entries :
  Forall (fun c : ServiceType * string * list Track => c.2 = [])
         (target_calls connectors group [] entries).
Proof.
  induction entries as [|entry entries IH]; [constructor|].
  unfold target_calls in *. simpl.
  destruct (eligible connectors group entry); simpl; [by constructor|done].
Qed.

(** X3. In a cycle whose source digest differs from the snapshot and that
    returns, the [replace_tracks] calls are exactly one per target of the
    mapping (an entry other than the primary whose connector is registered
    and has its token ready), in the order of the mapping, each with the
    tracks its searches found in source order, the misses left out; with an
    empty source every call carries the empty list.  Nothing is written but
    the digest, which is then the group's snapshot. *)
Theorem sync_group_replace_calls :
  forall (connectors : ServiceType -> option Connector) (group : SyncGroup) (st st' : State)
         (connector : Connector) (playlist_id : string) (tracks : list Track),
    connectors (primary_service group) = Some connector ->
    token_ready connector = Ok true ->
    dict_get (playlists group) (primary_service group) = Some playlist_id ->
    playlist_id <> EmptyString ->
    list_tracks connector playlist_id = Ok tracks ->
    store st !! snapshot_key group <> Some (JStr (_tracks_digest tracks)) ->
    _sync_group connectors group st = (Ok tt, st') ->
    exists calls,
      log st' = log st ++ calls
      /\ replace_calls calls = target_calls connectors group tracks (playlists group)
      /\ (tracks = [] -> Forall (fun c => c.2 = []) (replace_calls calls))
      /\ store st'
         = sort_keys <$> <[snapshot_key group := JStr (_tracks_digest tracks)]> (store st).
Proof.
  intros cs g st st' c pid tracks Hc Hready Hpid Hne Htracks Hsnap.
  rewrite (sync_group_changed cs g c pid tracks) by done.
  rewrite M_bind_unfold. unfold _sync_targets.
  destruct (for_each _ (playlists g) _) as [[[]|e] st1] eqn:Htargets; [|done].
  apply sync_targets_Ok in Htargets as (calls & -> & Hcalls).
  unfold storage_set. intros [= <-]. cbn [log store compared after_calls].
  eexists. split; [by rewrite <- !app_assoc|].
  rewrite !replace_calls_app, Hcalls. cbn [replace_calls omap app]. rewrite app_nil_r.
  fold (target_calls cs g tracks (playlists g)).
  split; [done|]. split; [|done]. intros ->. apply target_calls_empty.
Qed.

(** X4. In a cycle whose source digest differs from the snapshot, a
    [replace_tracks] call of a target that raises ends the group's step with
    that exception: the calls made are those of the entries before it and
    then the failing call, no entry after it is looked at, and the store is
    left as it was, without the new digest. *)
Theorem sync_group_replace_failure :
  forall (connectors : ServiceType -> option Connector) (group : SyncGroup) (st st1 : State)
         (connector : Connector) (playlist_id : string) (tracks : list Track)
         (before after : list (ServiceType * string)) (service : ServiceType)
         (target_id : string) (target : Connector) (e : exn),
    connectors (primary_service group) = Some connector ->
    token_ready connector = Ok true ->
    dict_get (playlists group) (primary_service group) = Some playlist_id ->
    playlist_id <> EmptyString ->
    list_tracks connector playlist_id = Ok tracks ->
    store st !! snapshot_key group <> Some (JStr (_tracks_digest tracks)) ->
    playlists group = before ++ (service, target_id) :: after ->
    for_each (sync_target connectors group tracks) before (compared group playlist_id st)
    = (Ok tt, st1) ->
    eligible connectors group (service, target_id) = Some target ->
    Forall (fun t => exists found, search_track target t = Ok found) tracks ->
    replace_tracks target target_id (matched target tracks) = Raise e ->
    exists calls,
      _sync_group connectors group st
      = (Raise e,
         after_calls st (calls ++ [EvReplaceTracks service target_id (matched target tracks)]))
      /\ replace_calls calls = target_calls connectors group tracks before.
Proof.
  intros cs g st st1 c pid tracks before after s tid tc e
    Hc Hready Hpid Hne Htracks Hsnap Hsplit Hbefore Hel Hsearch Hreplace.
  rewrite (sync_group_changed cs g c pid tracks) by done.
  rewrite M_bind_unfold. unfold _sync_targets. rewrite Hsplit, for_each_app, Hbefore.
  cbn [for_each]. rewrite M_bind_unfold, (sync_target_eligible _ _ _ _ _ tc) by done.
  rewrite M_bind_unfold, search_all_total by done. unfold call. cbn [app]. rewrite Hreplace.
  apply sync_targets_Ok in Hbefore as (calls & -> & Hcalls).
  unfold compared. rewrite !record_after_calls, !after_calls_app. cbn [app].
  exists ([EvTokenReady (primary_service g); EvListTracks (primary_service g) pid;
           EvStorageGet (snapshot_key g)]
          ++ calls ++ [EvTokenReady s] ++ (EvSearchTrack s <$> tracks)).
  split.
  - do 2 f_equal. by rewrite <- !app_assoc.
  - rewrite !replace_calls_app, Hcalls, replace_calls_search.
    cbn [replace_calls omap replace_call app]. by rewrite app_nil_r.
Qed.

(** ** Sweeps and the loop *)

Lemma run_once_unfold connectors st :
  run_once connectors st
  = match (load_groups st).1 with
    | Ok groups => for_each (_sync_group connectors) groups (record (EvStorageGet "sync_groups") st)
    | Raise e => (Raise e, record (EvStorageGet "sync_groups") st)
    end.
Proof.
  unfold run_once. rewrite M_bind_unfold, load_groups_unfold. cbn [fst].
  by destruct (_ ≫= _).
Qed.

(** X5. A sweep does not outlive an exception: when the step of one group
    raises, [run_once] raises the same exception in the state that step left,
    the groups after it are not looked at, and the loop that made the pass
    ends with that exception instead of going on to the next pass. *)
Theorem run_once_failure :
  forall (connectors : ServiceType -> option Connector) (st st1 st2 : State)
         (before after : list SyncGroup) (group : SyncGroup) (e : exn),
    (load_groups st).1 = Ok (before ++ group :: after) ->
    for_each (_sync_group connectors) before (record (EvStorageGet "sync_groups") st)
    = (Ok tt, st1) ->
    _sync_group connectors group st1 = (Raise e, st2) ->
    run_once connectors st = (Raise e, st2)
    /\ forall tick later n,
         tick_connectors tick = connectors ->
         run (tick :: later) false n st = mkRun (Raised e) (S n) (stop_during_pass tick) st2.
Proof.
  intros cs st st1 st2 before after g e Hload Hbefore Hg.
  assert (run_once cs st = (Raise e, st2)) as Hrun.
  { rewrite run_once_unfold, Hload, for_each_app, Hbefore. cbn [for_each].
    by rewrite M_bind_unfold, Hg. }
  split; [done|]. intros tick later n <-. cbn [run]. by rewrite Hrun.
Qed.

Lemma run_set schedule n st : run schedule true n st = mkRun Returned n true st.
Proof. by destruct schedule. Qed.

(** X6. Once [stop] has been called the loop starts no further pass.  With
    the event set on entry it returns at once.  Otherwise, if nobody calls
    [stop] during the first turns and somebody does during the pass or the
    wait of the turn after them, the loop behaves as if the schedule ended
    with that turn: it does not stay running, it has started at most one
    pass per turn up to that one, and when it returns it has completed that
    last pass with the event set. *)
Theorem run_stops :
  forall (pre : list Tick) (tick : Tick) (later : list Tick) (n : nat) (st : State),
    Forall undisturbed pre ->
    stop_during_pass tick || stop_during_wait tick = true ->
    (forall schedule, run schedule true n st = mkRun Returned n true st)
    /\ run (pre ++ tick :: later) false n st = run (pre ++ [tick]) false n st
    /\ outcome (run (pre ++ tick :: later) false n st) <> Running
    /\ passes (run (pre ++ tick :: later) false n st) <= n + length pre + 1
    /\ (outcome (run (pre ++ tick :: later) false n st) = Returned ->
        passes (run (pre ++ tick :: later) false n st) = n + length pre + 1
        /\ stop_event (run (pre ++ tick :: later) false n st) = true
        /\ exists st0,
             run_once (tick_connectors tick) st0
             = (Ok tt, final (run (pre ++ tick :: later) false n st))).
Proof.
  intros pre tick later n st Hpre Hstop. split; [intros; apply run_set|].
  revert n st. induction Hpre as [|t pre [Hp Hw] _ IH]; intros n st.
  - cbn [app run length].
    destruct (run_once (tick_connectors tick) st) as [[[]|e] st'] eqn:Hrun.
    + assert ((if stop_during_pass tick then true else stop_during_wait tick) = true) as ->.
      { by destruct (stop_during_pass tick). }
      rewrite !run_set. cbn. split_and!; try done; try lia.
      intros _. split_and!; [lia|done|by exists st].
    + cbn. split_and!; try done. lia.
  - cbn [app run length].
    destruct (run_once (tick_connectors t) st) as [[[]|e] st'] eqn:Hrun.
    + rewrite Hp, Hw. destruct (IH (S n) st') as (H1 & H2 & H3 & H4).
      split_and!; try done; [lia|]. intros Hret. destruct (H4 Hret) as (? & ? & ?).
      split_and!; [lia|done|done].
    + cbn. split_and!; try done. lia.
Qed.

(** ** [sort_keys] *)

Lemma json_nested_ind (P : json -> Prop) :
  P JNull -> (forall b, P (JBool b)) -> (forall n, P (JNum n)) -> (forall s, P (JStr s)) ->
  (forall items, Forall P items -> P (JArr items)) ->
  (forall members, Forall (fun kv => P kv.2) members -> P (JObj members)) ->
  forall j, P j.
Proof.
  intros HNull HBool HNum HStr HArr HObj.
  fix IH 1. intros [|b|n|s|items|members];
    [apply HNull|apply HBool|apply HNum|apply HStr| |].
  - apply HArr. induction items as [|j items IHitems]; constructor; [apply IH|exact IHitems].
  - apply HObj. induction members as [|[k j] members IHmembers]; constructor;
      [apply IH|exact IHmembers].
Qed.

Lemma insert_member_sorted {A} (kv : string * A) l :
  sorted_members l -> sorted_members (insert_member kv l).
Proof.
  induction l as [|kv' l IH]; [done|].
  intros [Hhead Hl]. cbn [insert_member].
  destruct (String.leb kv.1 kv'.1) eqn:Hle; [done|].
  split; [|by apply IH].
  destruct l as [|kv2 l]; cbn [insert_member].
  - destruct (String.leb_total kv.1 kv'.1) as [Ht|Ht]; [congruence|done].
  - destruct (String.leb kv.1 kv2.1); [|done].
    destruct (String.leb_total kv.1 kv'.1) as [Ht|Ht]; [congruence|done].
Qed.

Lemma sort_members_sorted {A} (l : list (string * A)) : sorted_members (sort_members l).
Proof.
  induction l as [|kv l IH]; [done|]. by apply insert_member_sorted.
Qed.

Lemma sort_members_id {A} (l : list (string * A)) : sorted_members l -> sort_members l = l.
Proof.
  induction l as [|kv l IH]; [done|].
  intros [Hhead Hl]. unfold sort_members in *. cbn [foldr]. rewrite IH by done.
  destruct l as [|kv' l]; [done|]. cbn [insert_member]. by rewrite Hhead.
Qed.

Lemma insert_member_map {A B} (f : A -> B) (kv : string * A) l :
  insert_member (kv.1, f kv.2) (map (fun kv => (kv.1, f kv.2)) l)
  = map (fun kv => (kv.1, f kv.2)) (insert_member kv l).
Proof.
  induction l as [|kv' l IH]; [done|].
  cbn [map insert_member fst]. destruct (String.leb kv.1 kv'.1); [done|].
  cbn [map]. by rewrite <- IH.
Qed.

Lemma sort_members_map {A B} (f : A -> B) (l : list (string * A)) :
  sort_members (map (fun kv => (kv.1, f kv.2)) l)
  = map (fun kv => (kv.1, f kv.2)) (sort_members l).
Proof.
  induction l as [|kv l IH]; [done|].
  unfold sort_members in *. cbn [map foldr]. rewrite IH. apply insert_member_map.
Qed.

(** What [sort_keys=True] has put in order stays as it is. *)
Lemma sort_keys_idemp (j : json) : sort_keys (sort_keys j) = sort_keys j.
Proof.
  induction j as [|b|n|s|items IH|members IH] using json_nested_ind; try done.
  - cbn [sort_keys]. f_equal. rewrite map_map.
    induction IH as [|j items Hj _ IHitems]; [done|]. cbn [map]. by rewrite Hj, IHitems.
  - cbn [sort_keys]. f_equal.
    rewrite <- (sort_members_map sort_keys
                  (map (fun kv : string * json => (kv.1, sort_keys kv.2)) members)).
    rewrite (sort_members_id (sort_members _)) by apply sort_members_sorted.
    f_equal. rewrite map_map. cbn [fst snd].
    induction IH as [|kv members Hkv _ IHmembers]; [done|]. cbn [map]. by rewrite Hkv, IHmembers.
Qed.

(** ** The state store *)

Lemma fmap_sort_keys_normal (m : gmap string json) :
  (forall key value, m !! key = Some value -> sort_keys value = value) ->
  sort_keys <$> m = m.
Proof.
  intros Hm. apply map_eq. intros key. rewrite lookup_fmap.
  destruct (m !! key) as [v|] eqn:Hv; [|done]. cbn. by rewrite (Hm key v).
Qed.

Lemma normal_fmap (m : gmap string json) (log' : list Event) :
  normal (mkState (sort_keys <$> m) log').
Proof.
  intros key value. cbn [store]. rewrite lookup_fmap.
  destruct (m !! key) as [v|]; [|done]. intros [= <-]. apply sort_keys_idemp.
Qed.

(** X7. What [set] stores under a key is what [get] then returns for it,
    with the keys of its objects in order, whatever was there before and
    whatever the default is; the values under the other keys are the old
    ones put in order, and the whole store is then in order.  On a store in
    order, [set] changes the one key and nothing else. *)
Theorem storage_set_get :
  forall (key : string) (value default : json) (st : State),
    (storage_get key default (storage_set key value st).2).1 = Ok (sort_keys value)
    /\ (forall key', key' <> key ->
          store (storage_set key value st).2 !! key' = sort_keys <$> store st !! key')
    /\ normal (storage_set key value st).2
    /\ (normal st -> store (storage_set key value st).2 = <[key := sort_keys value]> (store st)).
Proof.
  intros key value default st. unfold storage_set, storage_get. cbn [fst snd store].
  split_and!.
  - by rewrite lookup_fmap, lookup_insert_eq.
  - intros key' Hne. by rewrite lookup_fmap, lookup_insert_ne.
  - apply normal_fmap.
  - intros Hst. by rewrite fmap_insert, fmap_sort_keys_normal.
Qed.

(** X8. After [delete] of a key, [get] returns the default for it.  When
    the key is not in the store, the store is not rewritten at all; on a
    store in order, [delete] removes the one key and nothing else, and the
    store stays in order. *)
Theorem storage_delete_get :
  forall (key : string) (default : json) (st : State),
    (storage_get key default (storage_delete key st).2).1 = Ok default
    /\ (store st !! key = None -> store (storage_delete key st).2 = store st)
    /\ (normal st ->
        store (storage_delete key st).2 = delete key (store st)
        /\ normal (storage_delete key st).2).
Proof.
  intros key default st. unfold storage_delete, storage_get. cbn [fst snd store].
  split_and!.
  - destruct (store st !! key) as [v|] eqn:Hv.
    + by rewrite lookup_fmap, lookup_delete_eq.
    + by rewrite Hv.
  - by intros ->.
  - intros Hst. destruct (store st !! key) as [v|] eqn:Hv.
    + split; [|apply normal_fmap].
      apply fmap_sort_keys_normal. intros k w Hk. apply (Hst k w).
      destruct (decide (key = k)) as [->|Hne];
        [by rewrite lookup_delete_eq in Hk|by rewrite lookup_delete_ne in Hk].
    + split; [|done]. apply map_eq. intros k.
      destruct (decide (key = k)) as [->|Hne];
        [by rewrite lookup_delete_eq|by rewrite lookup_delete_ne].
Qed.

(** ** The registry *)

Lemma load_groups_pair (st : State) (r : Result (list SyncGroup)) :
  (load_groups st).1 = r -> load_groups st = (r, record (EvStorageGet "sync_groups") st).
Proof. rewrite load_groups_unfold. cbn [fst]. by intros ->. Qed.

Lemma load_groups_lookup (st : State) (groups : list SyncGroup) :
  store st !! "sync_groups" = Some (JArr (map sort_keys (map to_dict groups))) ->
  Forall (fun g => dict_wf (playlists g)) groups ->
  (load_groups st).1 = Ok (stored_group <$> groups).
Proof.
  intros Hlookup Hwf. rewrite load_groups_unfold. cbn [fst]. rewrite Hlookup.
  cbn [from_option id json_iter]. rewrite bind_Ok. by apply map_result_stored.
Qed.

Lemma stored_groups_equal (groups : list SyncGroup) :
  Forall (fun g => dict_wf (playlists g)) groups ->
  Forall2 group_equal groups (stored_group <$> groups).
Proof.
  intros Hwf. apply Forall2_fmap_r, Forall_Forall2_diag.
  eapply Forall_impl; [exact Hwf|]. intros g. apply stored_group_equal.
Qed.

Lemma snapshot_key_registry (gid : string) : "sync_snapshot::" +:+ gid <> "sync_groups".
Proof. cbn. discriminate. Qed.

(** X9. [create_group] on a readable registry returns the new group with
    the id drawn for it and the given name, primary service and mapping, and
    the registry then read from the store is the old list followed by that
    group; nothing else in the store is touched. *)
Theorem create_group_spec :
  forall (st : State) (groups : list SyncGroup) (uuid name' : string)
         (primary : ServiceType) (playlists' : list (ServiceType * string)),
    (load_groups st).1 = Ok groups ->
    dict_wf playlists' ->
    exists st',
      create_group uuid name' primary playlists' st
      = (Ok (mkGroup uuid name' primary playlists'), st')
      /\ (forall key, key <> "sync_groups" ->
            store st' !! key = sort_keys <$> store st !! key)
      /\ exists loaded,
           (load_groups st').1 = Ok loaded
           /\ Forall2 group_equal (groups ++ [mkGroup uuid name' primary playlists']) loaded.
Proof.
  intros st groups uuid nm prim pl Hload Hwf.
  pose proof (load_groups_wf _ _ Hload) as Hgroups.
  unfold create_group. rewrite M_bind_unfold, (load_groups_pair st (Ok groups)) by done.
  rewrite M_bind_unfold, save_groups_unfold.
  assert (Forall (fun g => dict_wf (playlists g)) (groups ++ [mkGroup uuid nm prim pl])) as Hall.
  { apply Forall_app. split; [done|]. by constructor. }
  eexists. split; [reflexivity|]. split.
  - intros key Hkey. cbn [store record]. by rewrite lookup_fmap, lookup_insert_ne.
  - exists (stored_group <$> (groups ++ [mkGroup uuid nm prim pl])).
    split; [|by apply stored_groups_equal].
    apply load_groups_lookup; [|done]. cbn [store record].
    by rewrite lookup_fmap, lookup_insert_eq.
Qed.

(** X10. [delete_group] on a readable registry leaves in the registry the
    groups with another id, in their order, and removes the snapshot kept
    under the id; the other keys of the store keep their values.  It
    rewrites the registry also when no group carries the id. *)
Theorem delete_group_spec :
  forall (st : State) (groups : list SyncGroup) (gid : string),
    (load_groups st).1 = Ok groups ->
    exists st',
      delete_group gid st = (Ok tt, st')
      /\ store st' !! ("sync_snapshot::" +:+ gid) = None
      /\ (forall key, key <> "sync_groups" -> key <> "sync_snapshot::" +:+ gid ->
            store st' !! key = sort_keys <$> store st !! key)
      /\ In (EvStorageSet "sync_groups"
               (JArr (map to_dict (filter (fun g => group_id g <> gid) groups)))) (log st')
      /\ exists loaded,
           (load_groups st').1 = Ok loaded
           /\ Forall2 group_equal (filter (fun g => group_id g <> gid) groups) loaded.
Proof.
  intros st groups gid Hload.
  pose proof (load_groups_wf _ _ Hload) as Hgroups.
  set (kept := filter (fun g => group_id g <> gid) groups).
  assert (Forall (fun g => dict_wf (playlists g)) kept) as Hkept.
  { apply Forall_forall. intros g [_ Hg]%list_elem_of_filter.
    by apply (proj1 (Forall_forall _ _) Hgroups). }
  unfold delete_group. rewrite M_bind_unfold, (load_groups_pair st (Ok groups)) by done.
  fold kept. rewrite M_bind_unfold, save_groups_unfold. unfold storage_delete.
  cbn [store log record].
  set (saved := sort_keys <$> <["sync_groups" := JArr (map to_dict kept)]> (store st)).
  assert (saved !! "sync_groups" = Some (JArr (map sort_keys (map to_dict kept)))) as Hsaved.
  { unfold saved. by rewrite lookup_fmap, lookup_insert_eq. }
  assert (forall key, key <> "sync_groups" -> saved !! key = sort_keys <$> store st !! key)
    as Hother.
  { intros key Hkey. unfold saved. by rewrite lookup_fmap, lookup_insert_ne. }
  pose proof (snapshot_key_registry gid) as Hne.
  eexists. split; [reflexivity|]. cbn [store log].
  destruct (saved !! ("sync_snapshot::" +:+ gid)) as [v|] eqn:Hsnap.
  - split_and!.
    + by rewrite lookup_fmap, lookup_delete_eq.
    + intros key Hk1 Hk2. rewrite lookup_fmap, lookup_delete_ne, Hother by done.
      destruct (store st !! key) as [w|]; [|done]. cbn. by rewrite sort_keys_idemp.
    + apply in_app_iff. left. apply in_app_iff. right. by left.
    + exists (stored_group <$> kept). split; [|by apply stored_groups_equal].
      apply load_groups_lookup; [|done]. cbn [store].
      rewrite lookup_fmap, lookup_delete_ne, Hsaved by done. cbn. f_equal. f_equal.
      rewrite map_map. apply map_ext. intros j. apply sort_keys_idemp.
  - split_and!.
    + done.
    + intros key Hk1 Hk2. by apply Hother.
    + apply in_app_iff. left. apply in_app_iff. right. by left.
    + exists (stored_group <$> kept). split; [|by apply stored_groups_equal].
      by apply load_groups_lookup.
Qed.

(** ** Incomplete and malformed records *)

Lemma playlists_of_items_unknown (good : list (string * json)) (service : string)
    (playlist_id : json) (rest : list (string * json)) (acc : list (ServiceType * string)) :
  Forall (fun entry => exists p, entry.2 = JStr p) good ->
  service_of_value service = None ->
  playlists_of_items (good ++ (service, playlist_id) :: rest) acc = Raise ValueError.
Proof.
  intros Hgood Hservice. revert acc.
  induction Hgood as [|[s v] good [p Hp] _ IH]; intros acc; cbn [app playlists_of_items].
  - cbn [service_type]. by rewrite Hservice.
  - cbn [snd] in Hp. subst v. cbn [service_type].
    destruct (service_of_value s) as [s'|]; [|done].
    rewrite bind_Ok. cbn [as_str]. rewrite bind_Ok. apply IH.
Qed.

(** X11. [from_dict] reads a record without a mapping (the key missing, or
    its value null, empty or otherwise false) as a group with an empty
    mapping.  It rejects a mapping with an unknown service with
    [ValueError], wherever the unknown service stands in the mapping, when
    the entries before it have strings as playlist ids, and it does so
    before it looks at the id, the name or the primary service.  Without a
    mapping it reports a missing id with [KeyError]. *)
Theorem from_dict_incomplete :
  forall (members : list (string * json)),
    (forall gid nm prim,
        dict_get members "id" = Some (JStr gid) ->
        dict_get members "name" = Some (JStr nm) ->
        dict_get members "primary_service" = Some (JStr (service_value prim)) ->
        dict_get members "playlists" = None
        \/ (exists v, dict_get members "playlists" = Some v /\ truthy v = false) ->
        from_dict (JObj members) = Ok (mkGroup gid nm prim []))
    /\ (forall good service playlist_id rest,
          dict_get members "playlists" = Some (JObj (good ++ (service, playlist_id) :: rest)) ->
          Forall (fun entry => exists p, entry.2 = JStr p) good ->
          service_of_value service = None ->
          from_dict (JObj members) = Raise ValueError)
    /\ (dict_get members "playlists" = None
        \/ (exists v, dict_get members "playlists" = Some v /\ truthy v = false) ->
        dict_get members "id" = None ->
        from_dict (JObj members) = Raise (KeyError "id")).
Proof.
  intros members.
  assert (dict_get members "playlists" = None
          \/ (exists v, dict_get members "playlists" = Some v /\ truthy v = false) ->
          json_items (match dict_get members "playlists" with
                      | Some v => if truthy v then v else JObj []
                      | None => JObj []
                      end) = Ok []) as Hitems.
  { intros [->|(v & -> & ->)]; done. }
  split_and!.
  - intros gid nm prim Hid Hname Hprim Hpl.
    unfold from_dict. cbn [json_get json_item]. rewrite bind_Ok, (Hitems Hpl), bind_Ok.
    cbn [playlists_of_items]. rewrite bind_Ok, Hid, Hname, Hprim.
    rewrite !bind_Ok. cbn [as_str service_type]. rewrite !bind_Ok.
    by rewrite service_of_value_value.
  - intros good service pid rest Hpl Hgood Hservice.
    unfold from_dict. cbn [json_get]. rewrite bind_Ok, Hpl.
    cbn [truthy]. rewrite bool_decide_eq_false_2 by (by destruct good). cbn [negb].
    cbn [json_items]. rewrite bind_Ok.
    by rewrite playlists_of_items_unknown.
  - intros Hpl Hid. unfold from_dict. cbn [json_get json_item].
    rewrite bind_Ok, (Hitems Hpl), bind_Ok.
    cbn [playlists_of_items]. rewrite bind_Ok. by rewrite Hid.
Qed.

Lemma map_result_Raise {A B} (f : A -> Result B) (good : list A) (bad : A) (rest : list A)
    (ys : list B) (e : exn) :
  map_result f good = Ok ys -> f bad = Raise e ->
  map_result f (good ++ bad :: rest) = Raise e.
Proof.
  revert ys. induction good as [|x good IH]; intros ys; cbn [app map_result].
  - intros _ ->. done.
  - intros (y & -> & (ys' & Hys & _)%bind_Ok_inv)%bind_Ok_inv Hbad.
    rewrite bind_Ok. by rewrite (IH ys').
Qed.

(** X12. One record of the registry that [from_dict] rejects with
    [KeyError], [ValueError] or [AttributeError] (a missing id, name or
    primary service, an unknown service, a record or a mapping that is no
    object) makes the whole registry unreadable: the sweep and the three
    registry operations raise the exception of that record right after
    reading the registry, without a call to a connector and without a
    write, also for the groups whose records are fine.  (A record with an
    id, a name or a playlist id that is no string lies outside the model,
    which marks it with [TypeError].) *)
Theorem registry_unreadable :
  forall (connectors : ServiceType -> option Connector) (st : State)
         (good : list json) (bad : json) (rest : list json)
         (groups : list SyncGroup) (e : exn),
    store st !! "sync_groups" = Some (JArr (good ++ bad :: rest)) ->
    map_result from_dict good = Ok groups ->
    from_dict bad = Raise e ->
    e <> TypeError ->
    run_once connectors st = (Raise e, record (EvStorageGet "sync_groups") st)
    /\ (forall uuid name' primary playlists',
          create_group uuid name' primary playlists' st
          = (Raise e, record (EvStorageGet "sync_groups") st))
    /\ (forall gid playlists',
          update_group gid playlists' st = (Raise e, record (EvStorageGet "sync_groups") st))
    /\ (forall gid, delete_group gid st = (Raise e, record (EvStorageGet "sync_groups") st)).
Proof.
  intros cs st good bad rest groups e Hstore Hgood Hbad _.
  assert (load_groups st = (Raise e, record (EvStorageGet "sync_groups") st)) as Hload.
  { apply load_groups_pair. rewrite load_groups_unfold. cbn [fst]. rewrite Hstore.
    cbn [from_option id json_iter]. rewrite bind_Ok. by apply (map_result_Raise _ _ _ _ groups). }
  split_and!.
  - unfold run_once. by rewrite M_bind_unfold, Hload.
  - intros. unfold create_group. by rewrite M_bind_unfold, Hload.
  - intros. unfold update_group. by rewrite M_bind_unfold, Hload.
  - intros. unfold delete_group. by rewrite M_bind_unfold, Hload.
Qed.

(** ** What a sweep writes *)

Lemma keeps_store_bind {A B} (m : M A) (f : A -> M B) :
  keeps_store m -> (forall a, keeps_store (f a)) -> keeps_store (m ≫= f).
Proof.
  intros Hm Hf st. rewrite M_bind_unfold. specialize (Hm st).
  destruct (m st) as [[a|e] st1]; cbn [snd] in *; [|done].
  by rewrite Hf.
Qed.

Lemma keeps_store_call {A} (ev : Event) (answer : Result A) : keeps_store (call ev answer).
Proof. done. Qed.

Lemma keeps_store_ret {A} (a : A) : keeps_store (mret a).
Proof. done. Qed.

Lemma keeps_store_for_each {A} (body : A -> M unit) (xs : list A) :
  (forall x, keeps_store (body x)) -> keeps_store (for_each body xs).
Proof.
  intros Hbody. induction xs as [|x xs IH]; [done|].
  cbn [for_each]. by apply keeps_store_bind.
Qed.

Lemma keeps_store_search_all connector service tracks acc :
  keeps_store (search_all connector service tracks acc).
Proof.
  revert acc. induction tracks as [|t tracks IH]; intros acc; [done|].
  cbn [search_all]. apply keeps_store_bind; [apply keeps_store_call|]. intros found. apply IH.
Qed.

Lemma keeps_store_sync_target connectors group tracks entry :
  keeps_store (sync_target connectors group tracks entry).
Proof.
  unfold sync_target. destruct (decide _); [done|].
  destruct (connectors entry.1) as [c|]; [|done].
  apply keeps_store_bind; [apply keeps_store_call|]. intros ready.
  destruct (negb ready); [done|]. destruct tracks as [|t tracks]; [done|].
  apply keeps_store_bind; [apply keeps_store_search_all|]. intros mapped. done.
Qed.

Lemma keeps_store_sync_targets connectors group tracks :
  keeps_store (_sync_targets connectors group tracks).
Proof. apply keeps_store_for_each. intros entry. apply keeps_store_sync_target. Qed.

(** The only write of a group's step is the group's snapshot. *)
Lemma sync_group_store_result connectors group st r st' :
  normal st ->
  _sync_group connectors group st = (r, st') ->
  store st' = store st
  \/ exists digest, store st' = <[snapshot_key group := JStr digest]> (store st).
Proof.
  intros Hst. unfold _sync_group.
  destruct (connectors (primary_service group)) as [c|]; [|intros [= <- <-]; by left].
  rewrite M_bind_unfold. unfold call at 1.
  destruct (token_ready c) as [[|]|e]; cbn [negb];
    [|intros [= <- <-]; by left|intros [= <- <-]; by left].
  destruct (dict_get (playlists group) (primary_service group)) as [pid|];
    [|intros [= <- <-]; by left].
  destruct (String.eqb pid EmptyString); [intros [= <- <-]; by left|].
  rewrite M_bind_unfold. unfold call at 1.
  destruct (list_tracks c pid) as [tracks|e]; [|intros [= <- <-]; by left].
  rewrite M_bind_unfold. unfold storage_get at 1. cbn [store record].
  destruct (match from_option id JNull _ with JStr s => _ | _ => false end);
    [intros [= <- <-]; by left|].
  rewrite M_bind_unfold.
  pose proof (keeps_store_sync_targets connectors group tracks) as Hkeep.
  match goal with |- context [_sync_targets connectors group tracks ?s] =>
    specialize (Hkeep s); destruct (_sync_targets connectors group tracks s) as [[[]|e] st1]
  end; cbn [snd store record] in Hkeep.
  - unfold storage_set. intros [= <- <-]. right. exists (_tracks_digest tracks). cbn [store].
    rewrite Hkeep, fmap_insert. cbn [sort_keys]. by rewrite fmap_sort_keys_normal.
  - intros [= <- <-]. by left.
Qed.

Lemma sync_group_store connectors group st :
  normal st ->
  store (_sync_group connectors group st).2 = store st
  \/ exists digest,
       store (_sync_group connectors group st).2
       = <[snapshot_key group := JStr digest]> (store st).
Proof.
  intros Hst. destruct (_sync_group connectors group st) as [r st'] eqn:Hrun.
  by apply (sync_group_store_result connectors group st r st').
Qed.

Lemma normal_insert_str (st st' : State) (key digest : string) :
  normal st -> store st' = <[key := JStr digest]> (store st) -> normal st'.
Proof.
  intros Hst Hst' k v. rewrite Hst'.
  destruct (decide (key = k)) as [->|Hne].
  - rewrite lookup_insert_eq. by intros [= <-].
  - rewrite lookup_insert_ne by done. apply Hst.
Qed.

Lemma sync_groups_store connectors groups st :
  normal st ->
  normal (for_each (_sync_group connectors) groups st).2
  /\ forall key, (forall g, g ∈ groups -> key <> snapshot_key g) ->
       store (for_each (_sync_group connectors) groups st).2 !! key = store st !! key.
Proof.
  revert st. induction groups as [|g groups IH]; intros st Hst; [done|].
  cbn [for_each]. rewrite M_bind_unfold.
  pose proof (sync_group_store connectors g st Hst) as Hg.
  destruct (_sync_group connectors g st) as [[[]|e] st1]; cbn [snd] in *.
  - assert (normal st1) as Hst1.
    { destruct Hg as [Hg|[d Hg]]; [|by eapply normal_insert_str].
      intros k v. rewrite Hg. apply Hst. }
    destruct (IH st1 Hst1) as [Hn Hframe]. split; [done|].
    intros key Hkey. rewrite Hframe by (intros g' Hg'; apply Hkey; by right).
    destruct Hg as [->|[d ->]]; [done|].
    rewrite lookup_insert_ne; [done|]. intros Heq. by apply (Hkey g); [left|].
  - split.
    + destruct Hg as [Hg|[d Hg]]; [|by eapply normal_insert_str].
      intros k v. rewrite Hg. apply Hst.
    + intros key Hkey. destruct Hg as [->|[d ->]]; [done|].
      rewrite lookup_insert_ne; [done|]. intros Heq. by apply (Hkey g); [left|].
Qed.

(** ** String literals *)

Lemma append_cons (x : ascii) (a b : string) : String x a +:+ b = String x (a +:+ b).
Proof. reflexivity. Qed.

Lemma append_nil_l (b : string) : EmptyString +:+ b = b.
Proof. reflexivity. Qed.

Lemma append_assoc (a b c : string) : (a +:+ b) +:+ c = a +:+ (b +:+ c).
Proof. induction a as [|x a IH]; [done|]. rewrite !append_cons. by f_equal. Qed.

Lemma append_nil_r (a : string) : a +:+ EmptyString = a.
Proof. induction a as [|x a IH]; [done|]. rewrite append_cons. by f_equal. Qed.

Ltac norm_append :=
  repeat (rewrite append_assoc || rewrite append_cons || rewrite append_nil_l).

Lemma decode_escape_char (c : ascii) (rest : string) :
  decode_char (escape_char c +:+ rest) = Some (c, rest).
Proof. destruct c as [[] [] [] [] [] [] [] []]; reflexivity. Qed.

Lemma decode_quote (rest : string) : decode_char (String dquote rest) = None.
Proof. reflexivity. Qed.

Lemma escape_inj (s1 s2 r1 r2 : string) :
  escape s1 +:+ String dquote r1 = escape s2 +:+ String dquote r2 -> s1 = s2 /\ r1 = r2.
Proof.
  revert s2. induction s1 as [|c1 s1 IH]; intros [|c2 s2]; cbn [escape];
    norm_append; intros H.
  - by injection H as ->.
  - apply (f_equal decode_char) in H. by rewrite decode_escape_char, decode_quote in H.
  - apply (f_equal decode_char) in H. by rewrite decode_escape_char, decode_quote in H.
  - pose proof (f_equal decode_char H) as Hd.
    rewrite !decode_escape_char in Hd. injection Hd as -> Hrest.
    by destruct (IH _ Hrest) as [-> ->].
Qed.

Lemma dumps_str_inj (s1 s2 r1 r2 : string) :
  dumps_str s1 +:+ r1 = dumps_str s2 +:+ r2 -> s1 = s2 /\ r1 = r2.
Proof.
  unfold dumps_str. norm_append. intros [= H]. by apply escape_inj.
Qed.

Lemma dumps_str_start (s r r' : string) : dumps_str s +:+ r <> String "]" r'.
Proof. unfold dumps_str. norm_append. discriminate. Qed.

Lemma opt_str_inj (o1 o2 : option string) (r1 r2 : string) :
  dumps_plain (opt_str o1) +:+ r1 = dumps_plain (opt_str o2) +:+ r2 -> o1 = o2 /\ r1 = r2.
Proof.
  destruct o1 as [s1|], o2 as [s2|]; cbn [opt_str dumps_plain].
  - by intros [-> ->]%dumps_str_inj.
  - unfold dumps_str. norm_append. discriminate.
  - unfold dumps_str. norm_append. discriminate.
  - norm_append. by intros [= ->].
Qed.

(** ** Lists *)

Section Items.
Context {A B : Type} (enc : A -> string) (f : A -> B).
Hypothesis enc_inj : forall a b r s, enc a +:+ r = enc b +:+ s -> f a = f b /\ r = s.
Hypothesis enc_start : forall a r r', enc a +:+ r <> String "]" r'.

Lemma join_items_tail (x : A) (xs : list A) (rest : string) :
  join ", " (map enc (x :: xs)) +:+ String "]" rest = enc x +:+ items_tail enc xs rest.
Proof.
  revert x. induction xs as [|y xs IH]; intros x.
  - reflexivity.
  - change (join ", " (map enc (x :: y :: xs)))
      with (enc x +:+ ", " +:+ join ", " (map enc (y :: xs))).
    rewrite !append_assoc, IH. reflexivity.
Qed.

Lemma items_tail_inj (xs ys : list A) (r s : string) :
  items_tail enc xs r = items_tail enc ys s -> map f xs = map f ys /\ r = s.
Proof.
  revert ys. induction xs as [|x xs IH]; intros [|y ys]; cbn [items_tail map];
    norm_append; intros H.
  - by injection H as ->.
  - discriminate.
  - discriminate.
  - injection H as H. apply enc_inj in H as [-> H].
    by destruct (IH _ H) as [-> ->].
Qed.

Lemma items_inj (xs ys : list A) (r s : string) :
  ("[" +:+ join ", " (map enc xs) +:+ "]") +:+ r
  = ("[" +:+ join ", " (map enc ys) +:+ "]") +:+ s ->
  map f xs = map f ys /\ r = s.
Proof.
  norm_append. intros [= H]. destruct xs as [|x xs], ys as [|y ys].
  - change (join ", " (map enc [])) with EmptyString in H.
    repeat (rewrite append_assoc in H || rewrite append_cons in H || rewrite append_nil_l in H). by injection H as ->.
  - change (join ", " (map enc [])) with EmptyString in H.
    rewrite join_items_tail, append_nil_l in H. symmetry in H. by apply enc_start in H.
  - change (join ", " (map enc [])) with EmptyString in H.
    rewrite join_items_tail, append_nil_l in H. by apply enc_start in H.
  - rewrite !join_items_tail in H. apply enc_inj in H as [Hxy H].
    apply items_tail_inj in H as [Hrest ->]. cbn [map]. by rewrite Hxy, Hrest.
Qed.
End Items.

Lemma artists_inj (xs ys : list string) (r s : string) :
  dumps_plain (JArr (map JStr xs)) +:+ r = dumps_plain (JArr (map JStr ys)) +:+ s ->
  xs = ys /\ r = s.
Proof.
  change (dumps_plain (JArr ?l)) with ("[" +:+ join ", " (map dumps_plain l) +:+ "]").
  rewrite !map_map.
  change (map (fun x : string => dumps_plain (JStr x))) with (map dumps_str).
  intros H. apply (items_inj dumps_str (fun x => x)) in H.
  - by rewrite !map_id in H.
  - apply dumps_str_inj.
  - apply dumps_str_start.
Qed.

(** ** Tracks *)

Lemma sort_keys_opt_str (o : option string) : sort_keys (opt_str o) = opt_str o.
Proof. by destruct o. Qed.

Lemma sort_keys_strs (xs : list string) : map sort_keys (map JStr xs) = map JStr xs.
Proof. rewrite map_map. by apply map_ext. Qed.

Lemma sort_keys_track_payload (t : Track) :
  sort_keys (track_payload t)
  = JObj [("album", opt_str (album t)); ("artists", JArr (map JStr (artists t)));
          ("id", JStr (track_id t)); ("isrc", opt_str (isrc t)); ("title", JStr (title t))].
Proof.
  unfold track_payload.
  change (sort_keys (JObj ?m)) with
    (JObj (sort_members (map (fun kv : string * json => (kv.1, sort_keys kv.2)) m))).
  cbn [map fst snd]. rewrite !sort_keys_opt_str.
  change (sort_keys (JArr ?l)) with (JArr (map sort_keys l)). rewrite sort_keys_strs.
  reflexivity.
Qed.

Lemma track_text_unfold (t : Track) (rest : string) :
  track_text t +:+ rest
  = "{" +:+ dumps_str "album" +:+ ": " +:+ dumps_plain (opt_str (album t))
    +:+ ", " +:+ dumps_str "artists" +:+ ": " +:+ dumps_plain (JArr (map JStr (artists t)))
    +:+ ", " +:+ dumps_str "id" +:+ ": " +:+ dumps_str (track_id t)
    +:+ ", " +:+ dumps_str "isrc" +:+ ": " +:+ dumps_plain (opt_str (isrc t))
    +:+ ", " +:+ dumps_str "title" +:+ ": " +:+ dumps_str (title t)
    +:+ "}" +:+ rest.
Proof.
  unfold track_text. rewrite sort_keys_track_payload.
  change (dumps_plain (JObj [?a; ?b; ?c; ?d; ?e])) with
    ("{" +:+ ((dumps_str a.1 +:+ ": " +:+ dumps_plain a.2)
              +:+ ", " +:+ (dumps_str b.1 +:+ ": " +:+ dumps_plain b.2)
              +:+ ", " +:+ (dumps_str c.1 +:+ ": " +:+ dumps_plain c.2)
              +:+ ", " +:+ (dumps_str d.1 +:+ ": " +:+ dumps_plain d.2)
              +:+ ", " +:+ (dumps_str e.1 +:+ ": " +:+ dumps_plain e.2)) +:+ "}").
  cbn [fst snd]. change (dumps_plain (JStr ?s)) with (dumps_str s).
  by rewrite !append_assoc.
Qed.

Lemma append_inj_l (lit a b : string) : lit +:+ a = lit +:+ b -> a = b.
Proof.
  induction lit as [|x lit IH]; [done|]. rewrite !append_cons. intros [= H]. by apply IH.
Qed.

Lemma track_text_start (t : Track) (r r' : string) : track_text t +:+ r <> String "]" r'.
Proof. rewrite track_text_unfold. discriminate. Qed.

Lemma track_text_inj (t1 t2 : Track) (r1 r2 : string) :
  track_text t1 +:+ r1 = track_text t2 +:+ r2 -> digest_fields t1 = digest_fields t2 /\ r1 = r2.
Proof.
  rewrite !track_text_unfold. intros H.
  apply (append_inj_l "{"), dumps_str_inj in H as [_ H].
  apply (append_inj_l ": "), opt_str_inj in H as [Halbum H].
  apply (append_inj_l ", "), dumps_str_inj in H as [_ H].
  apply (append_inj_l ": "), artists_inj in H as [Hartists H].
  apply (append_inj_l ", "), dumps_str_inj in H as [_ H].
  apply (append_inj_l ": "), dumps_str_inj in H as [Hid H].
  apply (append_inj_l ", "), dumps_str_inj in H as [_ H].
  apply (append_inj_l ": "), opt_str_inj in H as [Hisrc H].
  apply (append_inj_l ", "), dumps_str_inj in H as [_ H].
  apply (append_inj_l ": "), dumps_str_inj in H as [Htitle H].
  apply (append_inj_l "}") in H.
  unfold digest_fields. by rewrite Halbum, Hartists, Hid, Hisrc, Htitle, H.
Qed.

Lemma digest_input_unfold (tracks : list Track) :
  digest_input tracks = "[" +:+ join ", " (map track_text tracks) +:+ "]".
Proof.
  unfold digest_input, dumps. cbn [sort_keys dumps_plain]. by rewrite !map_map.
Qed.

Lemma track_payload_fields (t1 t2 : Track) :
  digest_fields t1 = digest_fields t2 -> track_payload t1 = track_payload t2.
Proof. unfold digest_fields, track_payload. by intros [= -> -> -> -> ->]. Qed.

Lemma digest_input_fields (A B : list Track) :
  map digest_fields A = map digest_fields B -> digest_input A = digest_input B.
Proof.
  intros H. unfold digest_input. do 2 f_equal.
  revert B H. induction A as [|a A IH]; intros [|b B]; cbn [map]; try done.
  intros Heq.
  assert (digest_fields a = digest_fields b) as Hab by congruence.
  assert (map digest_fields A = map digest_fields B) as H by exact (f_equal tail Heq).
  by rewrite (track_payload_fields a b), (IH B).
Qed.

(** X14. The text that is hashed determines, track by track and in order,
    the id, title, artists, album and ISRC of the source list, and nothing
    else: two lists give the same text exactly when they agree on these
    fields, so lists that differ in one of them or in order are hashed from
    different texts, and lists that differ only elsewhere (the duration)
    have the same digest. *)
Theorem digest_input_injective :
  forall (A B : list Track),
    (digest_input A = digest_input B <-> map digest_fields A = map digest_fields B)
    /\ _tracks_digest A = SHA256.hexdigest (digest_input A)
    /\ (map digest_fields A = map digest_fields B -> _tracks_digest A = _tracks_digest B).
Proof.
  intros A B. split_and!.
  - split; [|apply digest_input_fields].
    rewrite !digest_input_unfold. intros H.
    apply (f_equal (fun s => s +:+ EmptyString)) in H.
    apply (items_inj track_text digest_fields) in H as [H _]; [done| |].
    + apply track_text_inj.
    + apply track_text_start.
  - reflexivity.
  - intros H. unfold _tracks_digest. cbv zeta. fold (digest_input A). fold (digest_input B).
    by rewrite (digest_input_fields A B).
Qed.

(** ** The shape of a digest *)

Lemma hex_digit_alphabet (n : nat) : In (hex_digit n) SHA256.hex_alphabet.
Proof.
  unfold hex_digit.
  do 16 (destruct n as [|n]; [cbn; tauto|]). cbn. tauto.
Qed.

Lemma hex_state_string (s : SHA256.hash_state) : hex_string 64 (SHA256.hex_state s).
Proof.
  unfold SHA256.hex_state, SHA256.hex_word, SHA256.hex_nibble.
  repeat (split; [apply hex_digit_alphabet|]). exact I.
Qed.

Lemma hex_string_length (n : nat) (s : string) : hex_string n s -> String.length s = n.
Proof.
  revert s. induction n as [|n IH]; intros [|c s]; cbn; try done.
  intros [_ H]. by rewrite (IH s).
Qed.

Lemma hex_string_chars (n : nat) (s : string) :
  hex_string n s -> Forall (fun c => In c SHA256.hex_alphabet) (list_ascii_of_string s).
Proof.
  revert s. induction n as [|n IH]; intros [|c s]; cbn; try done.
  intros [Hc H]. constructor; [done|by apply IH].
Qed.

Lemma tracks_digest_hex (tracks : list Track) : hex_string 64 (_tracks_digest tracks).
Proof. unfold _tracks_digest, SHA256.hexdigest. apply hex_state_string. Qed.

(** X15. Every digest is a string of exactly 64 lower-case hexadecimal
    digits, whatever the track list, the empty one included; so the
    snapshot of a group is always such a string. *)
Theorem tracks_digest_shape :
  forall (tracks : list Track),
    String.length (_tracks_digest tracks) = 64
    /\ Forall (fun c => In c (list_ascii_of_string "0123456789abcdef"))
              (list_ascii_of_string (_tracks_digest tracks)).
Proof.
  intros tracks. pose proof (tracks_digest_hex tracks) as H. split.
  - by apply hex_string_length.
  - by apply (hex_string_chars 64).
Qed.

(** ** The properties on the scenarios *)

Lemma sync_group_skip_witness :
  test_connectors (primary_service tube_group) = None
  /\ exists calls,
       (_sync_group test_connectors tube_group empty_state).2 = after_calls empty_state calls
       /\ (calls = [] \/ calls = [EvTokenReady (primary_service tube_group)])
       /\ Forall (fun ev => is_playlist_io ev = false /\ is_store_write ev = false) calls
       /\ replace_calls calls = []
       /\ store (_sync_group test_connectors tube_group empty_state).2 = store empty_state
       /\ (_sync_group test_connectors tube_group empty_state).1
          = match test_connectors (primary_service tube_group) with
            | Some connector => token_ready connector ≫= fun _ => Ok tt
            | None => Ok tt
            end.
Proof.
  split; [reflexivity|].
  apply (sync_group_skip test_connectors tube_group empty_state). by left.
Defined.

Lemma sync_group_idempotent_witness :
  _sync_group test_connectors test_group empty_state
  = (Ok tt, (_sync_group test_connectors test_group empty_state).2)
  /\ exists calls,
       _sync_group test_connectors test_group
         (_sync_group test_connectors test_group empty_state).2
       = (Ok tt, after_calls (_sync_group test_connectors test_group empty_state).2 calls)
       /\ replace_calls calls = []
       /\ Forall (fun ev => is_store_write ev = false) calls.
Proof.
  assert (_sync_group test_connectors test_group empty_state
          = (Ok tt, (_sync_group test_connectors test_group empty_state).2)) as Hfirst
    by (vm_compute; reflexivity).
  split; [exact Hfirst|].
  exact (proj2 (sync_group_idempotent test_connectors test_group empty_state) _ Hfirst).
Defined.

Lemma sync_group_replace_calls_witness :
  _sync_group test_connectors test_group empty_state
  = (Ok tt, (_sync_group test_connectors test_group empty_state).2)
  /\ exists calls,
       log (_sync_group test_connectors test_group empty_state).2 = log empty_state ++ calls
       /\ replace_calls calls
          = target_calls test_connectors test_group [spotify_track] (playlists test_group)
       /\ ([spotify_track] = [] -> Forall (fun c => c.2 = []) (replace_calls calls))
       /\ store (_sync_group test_connectors test_group empty_state).2
          = sort_keys <$> <[snapshot_key test_group := JStr (_tracks_digest [spotify_track])]>
                            (store empty_state).
Proof.
  assert (_sync_group test_connectors test_group empty_state
          = (Ok tt, (_sync_group test_connectors test_group empty_state).2)) as Hrun
    by (vm_compute; reflexivity).
  split; [exact Hrun|].
  apply (sync_group_replace_calls test_connectors test_group empty_state _
           (FakeConnector SPOTIFY true) "spotify-1" [spotify_track]);
    [reflexivity|reflexivity|reflexivity|discriminate|reflexivity| |exact Hrun].
  cbn [store empty_state]. rewrite lookup_empty. discriminate.
Defined.

Lemma sync_group_replace_failure_witness :
  replace_tracks (BrokenConnector APPLE_MUSIC) "apple_music-1"
    (matched (BrokenConnector APPLE_MUSIC) [spotify_track])
  = Raise (ServiceError "replace failed")
  /\ exists calls,
       _sync_group broken_connectors three_way_group empty_state
       = (Raise (ServiceError "replace failed"),
          after_calls empty_state
            (calls ++ [EvReplaceTracks APPLE_MUSIC "apple_music-1"
                         (matched (BrokenConnector APPLE_MUSIC) [spotify_track])]))
       /\ replace_calls calls = target_calls broken_connectors three_way_group [spotify_track] [].
Proof.
  split; [reflexivity|].
  apply (sync_group_replace_failure broken_connectors three_way_group empty_state
           (compared three_way_group "spotify-1" empty_state)
           (FakeConnector SPOTIFY true) "spotify-1" [spotify_track]
           [] [(SPOTIFY, "spotify-1"); (YOUTUBE_MUSIC, "youtube_music-1")]
           APPLE_MUSIC "apple_music-1" (BrokenConnector APPLE_MUSIC)
           (ServiceError "replace failed"));
    [reflexivity|reflexivity|reflexivity|discriminate|reflexivity| |reflexivity|reflexivity
    |reflexivity| |reflexivity].
  - cbn [store empty_state]. rewrite lookup_empty. discriminate.
  - apply Forall_cons. split; [eexists; reflexivity|apply Forall_nil_2].
Defined.

Lemma run_once_failure_witness :
  (load_groups three_way_state).1 = Ok ([] ++ three_way_group :: [stored_group test_group])
  /\ _sync_group broken_connectors three_way_group
       (record (EvStorageGet "sync_groups") three_way_state)
     = (Raise (ServiceError "replace failed"),
        (_sync_group broken_connectors three_way_group
           (record (EvStorageGet "sync_groups") three_way_state)).2)
  /\ run_once broken_connectors three_way_state
     = (Raise (ServiceError "replace failed"),
        (_sync_group broken_connectors three_way_group
           (record (EvStorageGet "sync_groups") three_way_state)).2)
  /\ forall tick later n,
       tick_connectors tick = broken_connectors ->
       run (tick :: later) false n three_way_state
       = mkRun (Raised (ServiceError "replace failed")) (S n) (stop_during_pass tick)
           (_sync_group broken_connectors three_way_group
              (record (EvStorageGet "sync_groups") three_way_state)).2.
Proof.
  assert ((load_groups three_way_state).1
          = Ok ([] ++ three_way_group :: [stored_group test_group])) as Hload
    by (vm_compute; reflexivity).
  assert (_sync_group broken_connectors three_way_group
            (record (EvStorageGet "sync_groups") three_way_state)
          = (Raise (ServiceError "replace failed"),
             (_sync_group broken_connectors three_way_group
                (record (EvStorageGet "sync_groups") three_way_state)).2)) as Hgroup
    by (vm_compute; reflexivity).
  split; [exact Hload|]. split; [exact Hgroup|].
  apply (run_once_failure broken_connectors three_way_state
           (record (EvStorageGet "sync_groups") three_way_state) _
           [] [stored_group test_group] three_way_group (ServiceError "replace failed"));
    [exact Hload|reflexivity|exact Hgroup].
Defined.

Lemma run_stops_witness :
  Forall undisturbed [mkTick test_connectors false false]
  /\ (forall schedule, run schedule true 0 test_state = mkRun Returned 0 true test_state)
  /\ run ([mkTick test_connectors false false] ++ mkTick test_connectors true false
            :: [mkTick test_connectors false false]) false 0 test_state
     = run ([mkTick test_connectors false false] ++ [mkTick test_connectors true false])
         false 0 test_state
  /\ outcome (run ([mkTick test_connectors false false] ++ mkTick test_connectors true false
                     :: [mkTick test_connectors false false]) false 0 test_state) <> Running
  /\ passes (run ([mkTick test_connectors false false] ++ mkTick test_connectors true false
                    :: [mkTick test_connectors false false]) false 0 test_state)
     <= 0 + length [mkTick test_connectors false false] + 1
  /\ (outcome (run ([mkTick test_connectors false false] ++ mkTick test_connectors true false
                      :: [mkTick test_connectors false false]) false 0 test_state) = Returned ->
      passes (run ([mkTick test_connectors false false] ++ mkTick test_connectors true false
                     :: [mkTick test_connectors false false]) false 0 test_state)
      = 0 + length [mkTick test_connectors false false] + 1
      /\ stop_event (run ([mkTick test_connectors false false] ++ mkTick test_connectors true false
                            :: [mkTick test_connectors false false]) false 0 test_state) = true
      /\ exists st0,
           run_once (tick_connectors (mkTick test_connectors true false)) st0
           = (Ok tt, final (run ([mkTick test_connectors false false]
                                  ++ mkTick test_connectors true false
                                  :: [mkTick test_connectors false false]) false 0 test_state))).
Proof.
  assert (Forall undisturbed [mkTick test_connectors false false]) as Hpre.
  { apply Forall_cons. split; [by split|apply Forall_nil_2]. }
  split; [exact Hpre|].
  apply (run_stops [mkTick test_connectors false false] (mkTick test_connectors true false)
           [mkTick test_connectors false false] 0 test_state Hpre).
  reflexivity.
Defined.

Lemma normal_empty_state : normal empty_state.
Proof. intros key value. cbn [store empty_state]. by rewrite lookup_empty. Qed.

Lemma normal_test_state : normal test_state.
Proof. apply (normal_fmap (<["sync_groups" := JArr (map to_dict [test_group])]> ∅) []). Qed.

Lemma storage_set_get_witness :
  normal empty_state
  /\ (storage_get "k" JNull
        (storage_set "k" (JObj [("b", JNum 1); ("a", JNum 2)]) empty_state).2).1
     = Ok (sort_keys (JObj [("b", JNum 1); ("a", JNum 2)]))
  /\ (forall key', key' <> "k" ->
        store (storage_set "k" (JObj [("b", JNum 1); ("a", JNum 2)]) empty_state).2 !! key'
        = sort_keys <$> store empty_state !! key')
  /\ normal (storage_set "k" (JObj [("b", JNum 1); ("a", JNum 2)]) empty_state).2
  /\ (normal empty_state ->
      store (storage_set "k" (JObj [("b", JNum 1); ("a", JNum 2)]) empty_state).2
      = <["k" := sort_keys (JObj [("b", JNum 1); ("a", JNum 2)])]> (store empty_state)).
Proof.
  split; [exact normal_empty_state|].
  apply (storage_set_get "k" (JObj [("b", JNum 1); ("a", JNum 2)]) JNull empty_state).
Defined.

Lemma storage_delete_get_witness :
  normal test_state
  /\ (storage_get "sync_groups" (JArr []) (storage_delete "sync_groups" test_state).2).1
     = Ok (JArr [])
  /\ (store test_state !! "sync_groups" = None ->
      store (storage_delete "sync_groups" test_state).2 = store test_state)
  /\ (normal test_state ->
      store (storage_delete "sync_groups" test_state).2 = delete "sync_groups" (store test_state)
      /\ normal (storage_delete "sync_groups" test_state).2).
Proof.
  split; [exact normal_test_state|].
  apply (storage_delete_get "sync_groups" (JArr []) test_state).
Defined.

Lemma create_group_spec_witness :
  (load_groups test_state).1 = Ok [stored_group test_group]
  /\ dict_wf [(SPOTIFY, "spotify-2"); (YOUTUBE_MUSIC, "youtube_music-2")]
  /\ exists st',
       create_group "0f" "Second" SPOTIFY
         [(SPOTIFY, "spotify-2"); (YOUTUBE_MUSIC, "youtube_music-2")] test_state
       = (Ok (mkGroup "0f" "Second" SPOTIFY
                [(SPOTIFY, "spotify-2"); (YOUTUBE_MUSIC, "youtube_music-2")]), st')
       /\ (forall key, key <> "sync_groups" ->
             store st' !! key = sort_keys <$> store test_state !! key)
       /\ exists loaded,
            (load_groups st').1 = Ok loaded
            /\ Forall2 group_equal
                 ([stored_group test_group]
                  ++ [mkGroup "0f" "Second" SPOTIFY
                        [(SPOTIFY, "spotify-2"); (YOUTUBE_MUSIC, "youtube_music-2")]]) loaded.
Proof.
  assert ((load_groups test_state).1 = Ok [stored_group test_group]) as Hload
    by (vm_compute; reflexivity).
  assert (dict_wf [(SPOTIFY, "spotify-2"); (YOUTUBE_MUSIC, "youtube_music-2")]) as Hwf.
  { unfold dict_wf. apply (bool_decide_unpack _). by vm_compute. }
  split; [exact Hload|]. split; [exact Hwf|].
  apply (create_group_spec test_state [stored_group test_group] "0f" "Second" SPOTIFY
           [(SPOTIFY, "spotify-2"); (YOUTUBE_MUSIC, "youtube_music-2")] Hload Hwf).
Defined.

Lemma delete_group_spec_witness :
  (load_groups three_way_state).1 = Ok [three_way_group; stored_group test_group]
  /\ exists st',
       delete_group "g3" three_way_state = (Ok tt, st')
       /\ store st' !! ("sync_snapshot::" +:+ "g3") = None
       /\ (forall key, key <> "sync_groups" -> key <> "sync_snapshot::" +:+ "g3" ->
             store st' !! key = sort_keys <$> store three_way_state !! key)
       /\ In (EvStorageSet "sync_groups"
                (JArr (map to_dict
                         (filter (fun g => group_id g <> "g3")
                                 [three_way_group; stored_group test_group])))) (log st')
       /\ exists loaded,
            (load_groups st').1 = Ok loaded
            /\ Forall2 group_equal
                 (filter (fun g => group_id g <> "g3")
                         [three_way_group; stored_group test_group]) loaded.
Proof.
  assert ((load_groups three_way_state).1 = Ok [three_way_group; stored_group test_group])
    as Hload by (vm_compute; reflexivity).
  split; [exact Hload|].
  apply (delete_group_spec three_way_state [three_way_group; stored_group test_group] "g3" Hload).
Defined.

Lemma from_dict_incomplete_witness :
  (dict_get [("id", JStr "g1"); ("name", JStr "Mirror"); ("primary_service", JStr "spotify");
             ("playlists", JNull)] "playlists" = Some JNull
   /\ truthy JNull = false
   /\ from_dict (JObj [("id", JStr "g1"); ("name", JStr "Mirror");
                       ("primary_service", JStr "spotify"); ("playlists", JNull)])
      = Ok (mkGroup "g1" "Mirror" SPOTIFY []))
  /\ (service_of_value "tidal" = None
      /\ from_dict (JObj [("playlists", JObj ([("spotify", JStr "spotify-1")]
                                              ++ ("tidal", JStr "tidal-1")
                                              :: [("apple_music", JStr "apple_music-1")]))])
         = Raise ValueError).
Proof.
  split.
  - split; [reflexivity|]. split; [reflexivity|].
    apply (proj1 (from_dict_incomplete
                    [("id", JStr "g1"); ("name", JStr "Mirror");
                     ("primary_service", JStr "spotify"); ("playlists", JNull)])
             "g1" "Mirror" SPOTIFY);
      [reflexivity|reflexivity|reflexivity|].
    right. exists JNull. split; reflexivity.
  - split; [reflexivity|].
    apply (proj1 (proj2 (from_dict_incomplete
                           [("playlists", JObj ([("spotify", JStr "spotify-1")]
                                                ++ ("tidal", JStr "tidal-1")
                                                :: [("apple_music", JStr "apple_music-1")]))]))
             [("spotify", JStr "spotify-1")] "tidal" (JStr "tidal-1")
             [("apple_music", JStr "apple_music-1")]);
      [reflexivity| |reflexivity].
    apply Forall_cons. split; [by exists "spotify-1"|apply Forall_nil_2].
Defined.

Lemma registry_unreadable_witness :
  store damaged_state !! "sync_groups"
  = Some (JArr ([sort_keys (to_dict test_group)] ++ JObj [("id", JStr "g2")] :: []))
  /\ map_result from_dict [sort_keys (to_dict test_group)] = Ok [stored_group test_group]
  /\ from_dict (JObj [("id", JStr "g2")]) = Raise (KeyError "name")
  /\ run_once test_connectors damaged_state
     = (Raise (KeyError "name"), record (EvStorageGet "sync_groups") damaged_state)
  /\ (forall uuid name' primary playlists',
        create_group uuid name' primary playlists' damaged_state
        = (Raise (KeyError "name"), record (EvStorageGet "sync_groups") damaged_state))
  /\ (forall gid playlists',
        update_group gid playlists' damaged_state
        = (Raise (KeyError "name"), record (EvStorageGet "sync_groups") damaged_state))
  /\ (forall gid,
        delete_group gid damaged_state
        = (Raise (KeyError "name"), record (EvStorageGet "sync_groups") damaged_state)).
Proof.
  assert (store damaged_state !! "sync_groups"
          = Some (JArr ([sort_keys (to_dict test_group)] ++ JObj [("id", JStr "g2")] :: [])))
    as Hstore by (vm_compute; reflexivity).
  assert (map_result from_dict [sort_keys (to_dict test_group)] = Ok [stored_group test_group])
    as Hgood by (vm_compute; reflexivity).
  split; [exact Hstore|]. split; [exact Hgood|]. split; [reflexivity|].
  apply (registry_unreadable test_connectors damaged_state [sort_keys (to_dict test_group)]
           (JObj [("id", JStr "g2")]) [] [stored_group test_group] (KeyError "name")
           Hstore Hgood); [reflexivity|discriminate].
Defined.

Lemma digest_input_injective_witness :
  map digest_fields [spotify_track]
  = map digest_fields [mkTrack "spotify-track" "Song" ["Artist"] (Some "Album") None (Some 1000%Z)]
  /\ _tracks_digest [spotify_track]
     = _tracks_digest [mkTrack "spotify-track" "Song" ["Artist"] (Some "Album") None
                         (Some 1000%Z)].
Proof.
  split; [reflexivity|].
  apply (proj2 (proj2 (digest_input_injective [spotify_track]
           [mkTrack "spotify-track" "Song" ["Artist"] (Some "Album") None (Some 1000%Z)]))).
  reflexivity.
Defined.

(** ** What a step never does *)

Lemma emits_ret {A} (P : Event -> Prop) (a : A) : emits P (mret a).
Proof. intros st. exists []. by rewrite app_nil_r. Qed.

Lemma emits_call {A} (P : Event -> Prop) (ev : Event) (answer : Result A) :
  P ev -> emits P (call ev answer).
Proof. intros Hev st. exists [ev]. split; [done|]. by apply Forall_singleton. Qed.

Lemma emits_bind {A B} (P : Event -> Prop) (m : M A) (f : A -> M B) :
  emits P m -> (forall a, emits P (f a)) -> emits P (m ≫= f).
Proof.
  intros Hm Hf st. rewrite M_bind_unfold. destruct (Hm st) as (c1 & Hc1 & HP1).
  destruct (m st) as [[a|e] st1]; cbn [snd] in *; [|by exists c1].
  destruct (Hf a st1) as (c2 & Hc2 & HP2). exists (c1 ++ c2).
  rewrite Hc2, Hc1, app_assoc. split; [done|]. by apply Forall_app.
Qed.

Lemma emits_for_each {A} (P : Event -> Prop) (body : A -> M unit) (xs : list A) :
  Forall (fun x => emits P (body x)) xs -> emits P (for_each body xs).
Proof.
  induction 1 as [|x xs Hx _ IH]; [apply emits_ret|].
  cbn [for_each]. by apply emits_bind.
Qed.

Lemma emits_search_all (P : Event -> Prop) connector service tracks acc :
  (forall t, P (EvSearchTrack service t)) ->
  emits P (search_all connector service tracks acc).
Proof.
  intros HP. revert acc. induction tracks as [|t tracks IH]; intros acc; [apply emits_ret|].
  cbn [search_all]. apply emits_bind; [by apply emits_call|]. intros found. apply IH.
Qed.

Lemma emits_sync_target connectors group tracks entry :
  entry ∈ playlists group ->
  emits (safe_event group) (sync_target connectors group tracks entry).
Proof.
  intros Hentry. unfold sync_target.
  destruct (decide (entry.1 = primary_service group)) as [|Hne]; [apply emits_ret|].
  destruct (connectors entry.1) as [c|]; [|apply emits_ret].
  apply emits_bind; [by apply emits_call|]. intros ready.
  destruct (negb ready); [apply emits_ret|].
  assert (forall ts, safe_event group (EvReplaceTracks entry.1 entry.2 ts)) as Hsafe.
  { intros ts. split; [done|]. by destruct entry. }
  destruct tracks as [|t tracks]; [by apply emits_call|].
  apply emits_bind; [by apply emits_search_all|]. intros mapped. by apply emits_call.
Qed.

(** X17. Whatever the connectors answer and however the step ends, the
    step of a group never calls [replace_tracks] on the primary service and
    only on playlists that the mapping gives for the other services; its
    only store write is the group's own snapshot, and it deletes nothing. *)
Theorem sync_group_safe :
  forall (connectors : ServiceType -> option Connector) (group : SyncGroup) (st : State),
    exists calls,
      log (_sync_group connectors group st).2 = log st ++ calls
      /\ Forall (safe_event group) calls.
Proof.
  intros cs g. change (emits (safe_event g) (_sync_group cs g)). unfold _sync_group.
  destruct (cs (primary_service g)) as [c|]; [|apply emits_ret].
  apply emits_bind; [by apply emits_call|]. intros ready.
  destruct (negb ready); [apply emits_ret|].
  destruct (dict_get (playlists g) (primary_service g)) as [pid|]; [|apply emits_ret].
  destruct (String.eqb pid EmptyString); [apply emits_ret|].
  apply emits_bind; [by apply emits_call|]. intros tracks. cbv zeta.
  apply emits_bind.
  { intros st. exists [EvStorageGet (snapshot_key g)]. split; [done|]. by apply Forall_singleton. }
  intros previous. destruct (match previous with JStr s => _ | _ => false end); [apply emits_ret|].
  apply emits_bind.
  - apply emits_for_each, Forall_forall. intros entry Hentry. by apply emits_sync_target.
  - intros _ st. exists [EvStorageSet (snapshot_key g) (JStr (_tracks_digest tracks))].
    split; [done|]. by apply Forall_singleton.
Qed.

(** ** What a sweep never does *)





(** ** Two sweeps in a row *)

Lemma snapshot_key_inj (g h : SyncGroup) :
  snapshot_key g = snapshot_key h -> group_id g = group_id h.
Proof. apply append_inj_l. Qed.

Lemma settled_quiet connectors group st :
  settled connectors group (store st !! snapshot_key group) -> quiet_step connectors group st.
Proof.
  unfold settled. destruct (connectors (primary_service group)) as [c|] eqn:Hc.
  2:{ intros _. exists []. rewrite after_calls_nil.
      split; [by apply sync_group_no_connector|done]. }
  destruct (token_ready c) as [[|]|e] eqn:Hready; [| |done].
  2:{ intros _. eapply sync_group_quiet_skip; [done|done|by left]. }
  destruct (dict_get (playlists group) (primary_service group)) as [pid|] eqn:Hpid.
  2:{ intros _. eapply sync_group_quiet_skip; [done|done|right; by left]. }
  destruct (String.eqb pid EmptyString) eqn:Hempty.
  { apply String.eqb_eq in Hempty as ->. intros _.
    eapply sync_group_quiet_skip; [done|done|right; by right]. }
  apply String.eqb_neq in Hempty.
  destruct (list_tracks c pid) as [tracks|e] eqn:Htracks; [|done].
  intros Hsnap. eexists.
  rewrite (sync_group_unchanged connectors group c pid tracks) by done.
  split; [reflexivity|]. split; [done|]. by repeat constructor.
Qed.

Lemma step_settles connectors group st st' :
  _sync_group connectors group st = (Ok tt, st') ->
  settled connectors group (store st' !! snapshot_key group).
Proof.
  unfold settled. destruct (connectors (primary_service group)) as [c|] eqn:Hc; [|done].
  destruct (token_ready c) as [[|]|e] eqn:Hready; [|done|].
  2:{ rewrite (sync_group_no_source connectors group c) by (try done; left; by rewrite Hready).
      by rewrite Hready. }
  destruct (dict_get (playlists group) (primary_service group)) as [pid|] eqn:Hpid; [|done].
  destruct (String.eqb pid EmptyString) eqn:Hempty; [done|].
  apply String.eqb_neq in Hempty.
  destruct (list_tracks c pid) as [tracks|e] eqn:Htracks.
  - rewrite (sync_group_fetch connectors group c pid tracks) by done.
    destruct (match from_option id JNull (store st !! snapshot_key group) with
              | JStr s => String.eqb s (_tracks_digest tracks)
              | _ => false
              end) eqn:Heq.
    + intros [= <-]. cbn [compared after_calls store].
      destruct (store st !! snapshot_key group) as [[| | |s| |]|]; try done.
      cbn [from_option id] in Heq. by apply String.eqb_eq in Heq as ->.
    + apply sync_group_persists.
  - unfold _sync_group. rewrite Hc, M_bind_unfold. unfold call at 1.
    rewrite Hready. cbn [negb]. rewrite Hpid, (proj2 (String.eqb_neq _ _) Hempty).
    rewrite M_bind_unfold. unfold call at 1. by rewrite Htracks.
Qed.

Lemma first_sweep_settles connectors groups st st' :
  normal st ->
  NoDup (group_id <$> groups) ->
  for_each (_sync_group connectors) groups st = (Ok tt, st') ->
  Forall (fun g => settled connectors g (store st' !! snapshot_key g)) groups.
Proof.
  revert st. induction groups as [|g groups IH]; intros st Hst Hids; [constructor|].
  rewrite fmap_cons in Hids. apply NoDup_cons in Hids as [Hg Hids].
  cbn [for_each]. rewrite M_bind_unfold.
  destruct (_sync_group connectors g st) as [[[]|e] st1] eqn:Hstep; [|done].
  intros Hrest.
  assert (normal st1) as Hst1.
  { destruct (sync_group_store_result connectors g st _ _ Hst Hstep) as [Hs|[d Hs]];
      [|by eapply normal_insert_str].
    intros k v. rewrite Hs. apply Hst. }
  constructor; [|by apply (IH st1)].
  destruct (sync_groups_store connectors groups st1 Hst1) as [_ Hframe].
  rewrite Hrest in Hframe. cbn [snd] in Hframe. rewrite Hframe.
  - by apply (step_settles connectors g st).
  - intros h Hh Heq. apply snapshot_key_inj in Heq. apply Hg. rewrite Heq.
    by apply list_elem_of_fmap_2.
Qed.

Lemma second_sweep_quiet connectors groups st :
  Forall (fun g => settled connectors g (store st !! snapshot_key g)) groups ->
  exists calls,
    for_each (_sync_group connectors) groups st = (Ok tt, after_calls st calls)
    /\ replace_calls calls = []
    /\ Forall (fun ev => is_store_write ev = false) calls.
Proof.
  revert st. induction groups as [|g groups IH]; intros st Hall.
  - exists []. by rewrite after_calls_nil.
  - apply Forall_cons in Hall as [Hg Hall].
    destruct (settled_quiet connectors g st Hg) as (c1 & Hstep & Hr1 & Hw1).
    destruct (IH (after_calls st c1) Hall) as (c2 & Hrest & Hr2 & Hw2).
    exists (c1 ++ c2). cbn [for_each]. rewrite M_bind_unfold, Hstep, Hrest, after_calls_app.
    split; [done|]. rewrite replace_calls_app, Hr1, Hr2. split; [done|]. by apply Forall_app.
Qed.

(** X18. A sweep right after a sweep that returned, with the services
    answering as before, calls [replace_tracks] for no group and writes
    nothing, when the store is in order and the groups of the registry have
    different ids. *)
Theorem run_once_idempotent :
  forall (connectors : ServiceType -> option Connector) (st st1 : State)
         (groups : list SyncGroup),
    normal st ->
    (load_groups st).1 = Ok groups ->
    NoDup (group_id <$> groups) ->
    run_once connectors st = (Ok tt, st1) ->
    exists calls,
      run_once connectors st1 = (Ok tt, after_calls st1 calls)
      /\ replace_calls calls = []
      /\ Forall (fun ev => is_store_write ev = false) calls.
Proof.
  intros cs st st1 groups Hst Hload Hids Hfirst.
  pose proof (run_once_unfold cs st) as Hunfold. rewrite Hload, Hfirst in Hunfold.
  symmetry in Hunfold.
  pose proof (first_sweep_settles cs groups (record (EvStorageGet "sync_groups") st) st1
                Hst Hids Hunfold) as Hsettled.
  destruct (sync_groups_store cs groups (record (EvStorageGet "sync_groups") st) Hst)
    as [_ Hframe].
  rewrite Hunfold in Hframe. cbn [snd store record] in Hframe.
  assert ((load_groups st1).1 = Ok groups) as Hload1.
  { rewrite load_groups_unfold. cbn [fst]. rewrite Hframe.
    - by rewrite load_groups_unfold in Hload.
    - intros g _ Heq. symmetry in Heq. by apply snapshot_key_registry in Heq. }
  rewrite run_once_unfold, Hload1.
  destruct (second_sweep_quiet cs groups (record (EvStorageGet "sync_groups") st1) Hsettled)
    as (calls & Hrun & Hr & Hw).
  exists (EvStorageGet "sync_groups" :: calls). rewrite Hrun. split.
  - f_equal. rewrite record_after_calls, after_calls_app. done.
  - split; [done|]. by constructor.
Qed.

Lemma run_once_idempotent_witness :
  normal test_state
  /\ (load_groups test_state).1 = Ok [stored_group test_group]
  /\ NoDup (group_id <$> [stored_group test_group])
  /\ run_once test_connectors test_state = (Ok tt, (run_once test_connectors test_state).2)
  /\ exists calls,
       run_once test_connectors (run_once test_connectors test_state).2
       = (Ok tt, after_calls (run_once test_connectors test_state).2 calls)
       /\ replace_calls calls = []
       /\ Forall (fun ev => is_store_write ev = false) calls.
Proof.
  assert ((load_groups test_state).1 = Ok [stored_group test_group]) as Hload
    by (vm_compute; reflexivity).
  assert (NoDup (group_id <$> [stored_group test_group])) as Hids.
  { apply NoDup_singleton. }
  assert (run_once test_connectors test_state
          = (Ok tt, (run_once test_connectors test_state).2)) as Hrun
    by (vm_compute; reflexivity).
  split; [exact normal_test_state|]. split; [exact Hload|]. split; [exact Hids|].
  split; [exact Hrun|].
  apply (run_once_idempotent test_connectors test_state _ [stored_group test_group]
           normal_test_state Hload Hids Hrun).
Defined.

(** ** What signatures conflate *)

Lemma lower_append (a b : string) : lower (a +:+ b) = lower a +:+ lower b.
Proof. induction a as [|x a IH]; [done|]. rewrite append_cons. cbn [lower]. by rewrite IH. Qed.

Lemma join_split (a b : string) (rest : list string) :
  join " " ((a +:+ " " +:+ b) :: rest) = join " " (a :: b :: rest).
Proof.
  destruct rest as [|r rest]; [reflexivity|].
  change (join " " ((a +:+ " " +:+ b) :: r :: rest))
    with ((a +:+ " " +:+ b) +:+ " " +:+ join " " (r :: rest)).
  change (join " " (a :: b :: r :: rest))
    with (a +:+ " " +:+ b +:+ " " +:+ join " " (r :: rest)).
  by rewrite !append_assoc.
Qed.

(** X19. The signature does not keep apart what its text runs together: an
    artist whose name has a space and the two artists with the halves of
    that name, no album and the empty album, and a bar at the end of the
    title or at the start of the first artist.  Tracks that differ only in
    one of these ways, and in id, ISRC or duration, have equal signatures. *)
Theorem normalized_signature_conflates :
  forall (id1 id2 title' : string) (isrc1 isrc2 : option string) (d1 d2 : option Z),
    (forall a b rest album',
        normalized_signature (mkTrack id1 title' ((a +:+ " " +:+ b) :: rest) album' isrc1 d1)
        = normalized_signature (mkTrack id2 title' (a :: b :: rest) album' isrc2 d2))
    /\ (forall artists',
          normalized_signature (mkTrack id1 title' artists' None isrc1 d1)
          = normalized_signature (mkTrack id2 title' artists' (Some EmptyString) isrc2 d2))
    /\ (forall a b album',
          normalized_signature (mkTrack id1 (title' +:+ "|" +:+ a) [b] album' isrc1 d1)
          = normalized_signature (mkTrack id2 title' [a +:+ "|" +:+ b] album' isrc2 d2)).
Proof.
  intros id1 id2 ttl isrc1 isrc2 d1 d2. split_and!.
  - intros a b rest alb. unfold normalized_signature. cbn [title artists album].
    by rewrite join_split.
  - intros arts. reflexivity.
  - intros a b alb. unfold normalized_signature. cbn [title artists album].
    change (join " " [?x]) with x. rewrite !lower_append.
    change (lower "|") with "|". by rewrite !append_assoc.
Qed.

(** ** A new mapping and the old snapshot *)

Lemma update_group_found (st : State) (groups : list SyncGroup) (gid : string)
    (playlists' : list (ServiceType * string)) (i : nat) (g : SyncGroup) :
  (load_groups st).1 = Ok groups ->
  list_find (fun g => group_id g = gid) groups = Some (i, g) ->
  update_group gid playlists' st
  = (Ok (Some (with_playlists g playlists')),
     (save_groups (<[i := with_playlists g playlists']> groups)
        (record (EvStorageGet "sync_groups") st)).2).
Proof.
  intros Hload Hfind. unfold update_group.
  rewrite M_bind_unfold, (load_groups_pair st (Ok groups)) by done.
  by rewrite update_group_loop_spec, Hfind.
Qed.

(** X20. [update_group] leaves the snapshot of the group in place.  So when
    the group is in step with its source (the snapshot is the digest of what
    the source lists) and the new mapping keeps the source playlist, the
    next step of the updated group ends at the comparison: no
    [replace_tracks] call reaches the targets of the new mapping, new or
    changed ones included, until the source itself changes. *)
Theorem update_group_keeps_snapshot :
  forall (connectors : ServiceType -> option Connector) (st : State)
         (groups : list SyncGroup) (gid : string) (playlists' : list (ServiceType * string))
         (i : nat) (g : SyncGroup) (connector : Connector) (playlist_id : string)
         (tracks : list Track),
    (load_groups st).1 = Ok groups ->
    list_find (fun g => group_id g = gid) groups = Some (i, g) ->
    dict_wf playlists' ->
    connectors (primary_service g) = Some connector ->
    token_ready connector = Ok true ->
    dict_get playlists' (primary_service g) = Some playlist_id ->
    playlist_id <> EmptyString ->
    list_tracks connector playlist_id = Ok tracks ->
    store st !! snapshot_key g = Some (JStr (_tracks_digest tracks)) ->
    let g' := mkGroup (group_id g) (name g) (primary_service g) playlists' in
    exists st2,
      update_group gid playlists' st = (Ok (Some g'), st2)
      /\ (exists loaded, (load_groups st2).1 = Ok loaded /\ loaded !! i = Some (stored_group g'))
      /\ forall st3,
           store st3 = store st2 ->
           _sync_group connectors (stored_group g') st3
           = (Ok tt, after_calls st3 [EvTokenReady (primary_service g);
                                      EvListTracks (primary_service g) playlist_id;
                                      EvStorageGet (snapshot_key g)]).
Proof.
  intros cs st groups gid pl' i g c pid tracks Hload Hfind Hwf Hc Hready Hpid Hne Htracks Hsnap.
  cbv zeta. fold (with_playlists g pl'). set (g' := with_playlists g pl').
  pose proof (load_groups_wf _ _ Hload) as Hgroups.
  apply list_find_Some in Hfind as Hi. destruct Hi as (Hi & _ & _).
  eexists. split; [by apply update_group_found|]. split.
  - exists (stored_group <$> <[i := g']> groups). split.
    + apply load_after_save. by apply Forall_insert.
    + rewrite list_lookup_fmap, list_lookup_insert_eq; [done|]. by eapply lookup_lt_Some.
  - intros st3 Hst3.
    apply (sync_group_unchanged cs (stored_group g') c pid tracks); try done.
    + destruct (stored_group_equal g' Hwf) as (_ & _ & _ & Heq). by rewrite <- Heq.
    + change (snapshot_key (stored_group g')) with (snapshot_key g).
      rewrite Hst3, save_groups_unfold. cbn [snd store record].
      rewrite lookup_fmap, lookup_insert_ne, Hsnap; [done|].
      intros Heq. symmetry in Heq. by apply snapshot_key_registry in Heq.
Qed.

Lemma update_group_keeps_snapshot_witness :
  (load_groups (run_once test_connectors test_state).2).1 = Ok [stored_group test_group]
  /\ store (run_once test_connectors test_state).2 !! snapshot_key (stored_group test_group)
     = Some (JStr (_tracks_digest [spotify_track]))
  /\ exists st2,
       update_group "g1" [(SPOTIFY, "spotify-1"); (YOUTUBE_MUSIC, "youtube_music-1")]
         (run_once test_connectors test_state).2
       = (Ok (Some (mkGroup "g1" "Mirror" SPOTIFY
                      [(SPOTIFY, "spotify-1"); (YOUTUBE_MUSIC, "youtube_music-1")])), st2)
       /\ (exists loaded,
             (load_groups st2).1 = Ok loaded
             /\ loaded !! 0%nat
                = Some (stored_group
                          (mkGroup "g1" "Mirror" SPOTIFY
                             [(SPOTIFY, "spotify-1"); (YOUTUBE_MUSIC, "youtube_music-1")])))
       /\ forall st3,
            store st3 = store st2 ->
            _sync_group broken_connectors
              (stored_group (mkGroup "g1" "Mirror" SPOTIFY
                               [(SPOTIFY, "spotify-1"); (YOUTUBE_MUSIC, "youtube_music-1")])) st3
            = (Ok tt, after_calls st3 [EvTokenReady SPOTIFY;
                                       EvListTracks SPOTIFY "spotify-1";
                                       EvStorageGet (snapshot_key (stored_group test_group))]).
Proof.
  assert ((load_groups (run_once test_connectors test_state).2).1
          = Ok [stored_group test_group]) as Hload by (vm_compute; reflexivity).
  assert (store (run_once test_connectors test_state).2 !! snapshot_key (stored_group test_group)
          = Some (JStr (_tracks_digest [spotify_track]))) as Hsnap by (vm_compute; reflexivity).
  split; [exact Hload|]. split; [exact Hsnap|].
  apply (update_group_keeps_snapshot broken_connectors (run_once test_connectors test_state).2
           [stored_group test_group] "g1"
           [(SPOTIFY, "spotify-1"); (YOUTUBE_MUSIC, "youtube_music-1")]
           0 (stored_group test_group) (FakeConnector SPOTIFY true) "spotify-1" [spotify_track]
           Hload);
    [reflexivity| |reflexivity|reflexivity|reflexivity|discriminate|reflexivity|exact Hsnap].
  unfold dict_wf. apply (bool_decide_unpack _). by vm_compute.
Defined.

(** ** Signatures and matches *)

Lemma lower_char_small_letter (c : ascii) :
  lower_char c = small_letter_of capital_letters small_letters c.
Proof. destruct c as [[] [] [] [] [] [] [] []]; reflexivity. Qed.

Lemma lower_case_folded (s : string) : lower s = case_folded s.
Proof.
  induction s as [|c s IH]; [done|].
  cbn [lower case_folded]. by rewrite lower_char_small_letter, IH.
Qed.

Lemma signature_match_decide (candidate track : Track) :
  signature_match candidate track
  = bool_decide (normalized_signature candidate = normalized_signature track).
Proof.
  unfold signature_match.
  destruct (String.eqb_spec (normalized_signature candidate) (normalized_signature track)).
  - by rewrite bool_decide_eq_true_2.
  - by rewrite bool_decide_eq_false_2.
Qed.

Lemma spotify_first_match (items : list Spotify.Item) (track : Track) :
  Spotify.first_match items track
  = (fun found => Spotify.candidate found.2)
      <$> list_find (fun item => normalized_signature (Spotify.candidate item)
                                 = normalized_signature track) items.
Proof.
  induction items as [|item items IH]; [done|].
  cbn [Spotify.first_match list_find]. rewrite signature_match_decide.
  destruct (decide _) as [Heq|Hne].
  - by rewrite bool_decide_eq_true_2.
  - rewrite bool_decide_eq_false_2 by done. rewrite IH.
    by destruct (list_find _ items) as [[i found]|].
Qed.

Lemma apple_music_first_match (songs : list AppleMusic.Song) (track : Track) :
  AppleMusic.first_match songs track
  = (fun found => AppleMusic.candidate found.2)
      <$> list_find (fun item => normalized_signature (AppleMusic.candidate item)
                                 = normalized_signature track) songs.
Proof.
  induction songs as [|item songs IH]; [done|].
  cbn [AppleMusic.first_match list_find]. rewrite signature_match_decide.
  destruct (decide _) as [Heq|Hne].
  - by rewrite bool_decide_eq_true_2.
  - rewrite bool_decide_eq_false_2 by done. rewrite IH.
    by destruct (list_find _ songs) as [[i found]|].
Qed.

(** C7. The signature of a track is the case-folded title, the case-folded
    artists joined by a space and the case-folded album (empty when the
    track has none), separated by bars.  It reads no other field, so tracks
    that differ only in id, ISRC or duration have the same signature.
    Signatures are compared in the search of the Spotify and of the Apple
    Music connector only: each answers with the first result that has the
    signature of the track and, when no result has it, with the first
    result; the search of the YouTube Music connector answers with the first
    result whatever its signature. *)
Theorem normalized_signature_spec :
  forall (id id' ti : string) (ar : list string) (al isrc isrc' : option string)
         (d d' : option Z),
    let track := mkTrack id ti ar al isrc d in
    normalized_signature track
      = case_folded ti +:+ "|" +:+ case_folded (join " " ar) +:+ "|"
          +:+ case_folded (match al with Some a => a | None => EmptyString end)
    /\ normalized_signature track = normalized_signature (mkTrack id' ti ar al isrc' d')
    /\ (forall search : string -> Result (list Spotify.Item),
          Spotify.search_track search track
          = items ← search (Spotify.query track);
            mret (preferred Spotify.candidate items track))
    /\ (forall search : string -> Result (list AppleMusic.Song),
          AppleMusic.search_track search track
          = songs ← search (AppleMusic.query track);
            mret (preferred AppleMusic.candidate songs track))
    /\ (forall search : string -> Result (list YouTubeMusic.Video),
          YouTubeMusic.search_track search track
          = items ← search (YouTubeMusic.query track);
            mret (YouTubeMusic.candidate <$> head items)).
Proof.
  intros id id' ti ar al isrc isrc' d d' track. split_and!.
  - unfold track, normalized_signature. cbn [title artists album].
    rewrite !lower_case_folded. by destruct al.
  - done.
  - intros search. unfold Spotify.search_track.
    destruct (search (Spotify.query track)) as [items|e]; [|done].
    rewrite !bind_Ok. f_equal. rewrite spotify_first_match. unfold preferred.
    destruct (list_find _ items) as [[i found]|]; [done|]. by destruct items.
  - intros search. unfold AppleMusic.search_track.
    destruct (search (AppleMusic.query track)) as [songs|e]; [|done].
    rewrite !bind_Ok. f_equal. rewrite apple_music_first_match. unfold preferred.
    destruct (list_find _ songs) as [[i found]|]; [done|]. by destruct songs.
  - intros search. unfold YouTubeMusic.search_track.
    destruct (search (YouTubeMusic.query track)) as [items|e]; [|done].
    rewrite !bind_Ok. f_equal. by destruct items.
Qed.

(** The search of the Spotify connector answers a song for which it finds
    only a remix with the remix, whose signature is another one, and the
    engine writes the remix to the mirror as the match of the song. *)
Lemma same_song_counterexample :
  list_tracks (FakeConnector APPLE_MUSIC true) "apple_music-1" = Ok [remix_source]
  /\ Spotify.search_track (fun _ => Ok [remix_item]) remix_source
     = Ok (Some (Spotify.candidate remix_item))
  /\ normalized_signature remix_source = "song|artist|album"
  /\ normalized_signature (Spotify.candidate remix_item) = "song (remix)|artist|album"
  /\ normalized_signature (Spotify.candidate remix_item) <> normalized_signature remix_source
  /\ replace_calls (log (_sync_group remix_connectors remix_group empty_state).2)
     = [(SPOTIFY, "spotify-1", [Spotify.candidate remix_item])].
Proof.
  split_and!; [reflexivity|reflexivity|reflexivity|reflexivity|discriminate|].
  vm_compute. reflexivity.
Qed.

(** ** The cycle of a group: failures *)

Lemma emits_sync_target_quiet connectors group tracks entry :
  emits (fun ev => is_store_write ev = false) (sync_target connectors group tracks entry).
Proof.
  unfold sync_target.
  destruct (decide (entry.1 = primary_service group)); [apply emits_ret|].
  destruct (connectors entry.1) as [c|]; [|apply emits_ret].
  apply emits_bind; [by apply emits_call|]. intros ready.
  destruct (negb ready); [apply emits_ret|].
  destruct tracks as [|t tracks]; [by apply emits_call|].
  apply emits_bind; [by apply emits_search_all|]. intros mapped. by apply emits_call.
Qed.

Lemma state_after_calls (st st' : State) (calls : list Event) :
  store st' = store st -> log st' = log st ++ calls -> st' = after_calls st calls.
Proof. destruct st'. unfold after_calls. cbn. by intros -> ->. Qed.

(** A cycle that raises has made no store write. *)
Lemma sync_group_raise_quiet connectors group st e st' :
  _sync_group connectors group st = (Raise e, st') ->
  exists calls,
    st' = after_calls st calls /\ Forall (fun ev => is_store_write ev = false) calls.
Proof.
  unfold _sync_group.
  destruct (connectors (primary_service group)) as [c|]; [|done].
  rewrite M_bind_unfold. unfold call at 1.
  destruct (token_ready c) as [[|]|e0]; cbn [negb]; [|done|].
  2:{ intros [= _ <-]. exists [EvTokenReady (primary_service group)].
      split; [done|]. by repeat constructor. }
  destruct (dict_get (playlists group) (primary_service group)) as [pid|]; [|done].
  destruct (String.eqb pid EmptyString); [done|].
  rewrite M_bind_unfold. unfold call at 1.
  destruct (list_tracks c pid) as [tracks|e0].
  2:{ intros [= _ <-].
      exists [EvTokenReady (primary_service group); EvListTracks (primary_service group) pid].
      split; [|by repeat constructor].
      unfold after_calls, record. cbn [store log]. by rewrite <- app_assoc. }
  rewrite M_bind_unfold. unfold storage_get at 1. cbn [store record].
  destruct (match from_option id JNull _ with JStr s => _ | _ => false end); [done|].
  rewrite M_bind_unfold.
  pose proof (keeps_store_sync_targets connectors group tracks) as Hkeep.
  assert (emits (fun ev => is_store_write ev = false) (_sync_targets connectors group tracks))
    as Hquiet.
  { apply emits_for_each, Forall_forall. intros entry _. apply emits_sync_target_quiet. }
  match goal with |- context [_sync_targets connectors group tracks ?s] =>
    specialize (Hkeep s); destruct (Hquiet s) as (calls & Hlog & Hcalls);
    destruct (_sync_targets connectors group tracks s) as [[[]|e0] st1]
  end; cbn [snd store log record] in Hkeep, Hlog; [done|].
  intros [= _ <-].
  exists ([EvTokenReady (primary_service group); EvListTracks (primary_service group) pid;
           EvStorageGet (snapshot_key group)] ++ calls).
  split.
  - apply state_after_calls; [done|]. rewrite Hlog. by rewrite <- !app_assoc.
  - apply Forall_app. split; [by repeat constructor|done].
Qed.

(** C1. A cycle that ends with an exception has made no store write and
    leaves the snapshot as it was: the digest is persisted only by a cycle
    that returns.  In particular, in a cycle whose source digest differs
    from the snapshot, a [replace_tracks] call of a target that raises ends
    the cycle with that exception.  The calls made are those of the entries
    before the target and then the failing call, so the entries after it in
    the mapping are not attempted; the new digest is not persisted and the
    snapshot still differs from it. *)
Theorem replace_failure_ends_cycle :
  forall (connectors : ServiceType -> option Connector) (group : SyncGroup) (st : State),
    (forall e st',
        _sync_group connectors group st = (Raise e, st') ->
        exists calls,
          log st' = log st ++ calls
          /\ Forall (fun ev => is_store_write ev = false) calls
          /\ store st' !! snapshot_key group = store st !! snapshot_key group)
    /\ (forall (st1 : State) (connector : Connector) (playlist_id : string)
               (tracks : list Track) (before after : list (ServiceType * string))
               (service : ServiceType) (target_id : string) (target : Connector) (e : exn),
          connectors (primary_service group) = Some connector ->
          token_ready connector = Ok true ->
          dict_get (playlists group) (primary_service group) = Some playlist_id ->
          playlist_id <> EmptyString ->
          list_tracks connector playlist_id = Ok tracks ->
          store st !! snapshot_key group <> Some (JStr (_tracks_digest tracks)) ->
          playlists group = before ++ (service, target_id) :: after ->
          for_each (sync_target connectors group tracks) before (compared group playlist_id st)
          = (Ok tt, st1) ->
          eligible connectors group (service, target_id) = Some target ->
          Forall (fun t => exists found, search_track target t = Ok found) tracks ->
          replace_tracks target target_id (matched target tracks) = Raise e ->
          exists st' calls,
            _sync_group connectors group st = (Raise e, st')
            /\ log st'
               = log st ++ calls ++ [EvReplaceTracks service target_id (matched target tracks)]
            /\ replace_calls calls = target_calls connectors group tracks before
            /\ store st' !! snapshot_key group <> Some (JStr (_tracks_digest tracks))).
Proof.
  intros cs g st. split.
  { intros e st' (calls & -> & Hcalls)%sync_group_raise_quiet. by exists calls. }
  intros st1 c pid tracks before after s tid tc e
    Hc Hready Hpid Hne Htracks Hsnap Hsplit Hbefore Hel Hsearch Hreplace.
  destruct (_sync_group cs g st) as [r st'] eqn:Hrun.
  pose proof Hrun as Hsteps.
  rewrite (sync_group_changed cs g c pid tracks) in Hsteps by done.
  rewrite M_bind_unfold in Hsteps. unfold _sync_targets in Hsteps.
  rewrite Hsplit, for_each_app, Hbefore in Hsteps. cbn [for_each] in Hsteps.
  rewrite M_bind_unfold, (sync_target_eligible _ _ _ _ _ tc) in Hsteps by done.
  rewrite M_bind_unfold, search_all_total in Hsteps by done.
  unfold call in Hsteps. cbn [app] in Hsteps. rewrite Hreplace in Hsteps.
  injection Hsteps as <- <-.
  apply sync_targets_Ok in Hbefore as (calls & -> & Hcalls).
  eexists. exists ([EvTokenReady (primary_service g); EvListTracks (primary_service g) pid;
                    EvStorageGet (snapshot_key g)]
                   ++ calls ++ [EvTokenReady s] ++ (EvSearchTrack s <$> tracks)).
  split_and!.
  - done.
  - cbn [log record after_calls compared]. by rewrite <- !app_assoc.
  - rewrite !replace_calls_app, Hcalls, replace_calls_search.
    cbn [replace_calls omap replace_call app]. by rewrite app_nil_r.
  - done.
Qed.

Lemma replace_failure_ends_cycle_witness :
  replace_tracks (BrokenConnector APPLE_MUSIC) "apple_music-1"
    (matched (BrokenConnector APPLE_MUSIC) [spotify_track])
  = Raise (ServiceError "replace failed")
  /\ exists st' calls,
       _sync_group broken_connectors three_way_group empty_state
       = (Raise (ServiceError "replace failed"), st')
       /\ log st'
          = log empty_state ++ calls
            ++ [EvReplaceTracks APPLE_MUSIC "apple_music-1"
                  (matched (BrokenConnector APPLE_MUSIC) [spotify_track])]
       /\ replace_calls calls = target_calls broken_connectors three_way_group [spotify_track] []
       /\ store st' !! snapshot_key three_way_group
          <> Some (JStr (_tracks_digest [spotify_track])).
Proof.
  split; [reflexivity|].
  apply (proj2 (replace_failure_ends_cycle broken_connectors three_way_group empty_state)
           (compared three_way_group "spotify-1" empty_state)
           (FakeConnector SPOTIFY true) "spotify-1" [spotify_track]
           [] [(SPOTIFY, "spotify-1"); (YOUTUBE_MUSIC, "youtube_music-1")]
           APPLE_MUSIC "apple_music-1" (BrokenConnector APPLE_MUSIC)
           (ServiceError "replace failed"));
    [reflexivity|reflexivity|reflexivity|discriminate|reflexivity| |reflexivity|reflexivity
    |reflexivity| |reflexivity].
  - cbn [store empty_state]. rewrite lookup_empty. discriminate.
  - apply Forall_cons. split; [eexists; reflexivity|apply Forall_nil_2].
Defined.

(** With the first target failing, the second target of the group, which is
    registered and has its token ready, is not attempted, and the digest is
    not persisted. *)
Lemma replace_failure_counterexample :
  store empty_state !! snapshot_key three_way_group = None
  /\ eligible broken_connectors three_way_group (YOUTUBE_MUSIC, "youtube_music-1")
     = Some (FakeConnector YOUTUBE_MUSIC true)
  /\ (_sync_group broken_connectors three_way_group empty_state).1
     = Raise (ServiceError "replace failed")
  /\ log (_sync_group broken_connectors three_way_group empty_state).2
     = [EvTokenReady SPOTIFY; EvListTracks SPOTIFY "spotify-1";
        EvStorageGet "sync_snapshot::g3"; EvTokenReady APPLE_MUSIC;
        EvSearchTrack APPLE_MUSIC spotify_track;
        EvReplaceTracks APPLE_MUSIC "apple_music-1" [apple_track]]
  /\ store (_sync_group broken_connectors three_way_group empty_state).2
       !! snapshot_key three_way_group = None.
Proof. split_and!; reflexivity. Qed.

(** ** The sweep and the loop: failures *)

(** C2. An exception raised while one group is reconciled ends the sweep:
    [run_once] raises it in the state that the group's step left, so the
    groups after it in the registry are not processed in that sweep.  It
    ends the polling loop as well: the loop that made the pass ends with
    that exception after this pass, whatever the schedule holds after
    it. *)
Theorem sweep_failure_ends_loop :
  forall (connectors : ServiceType -> option Connector) (st st1 st2 : State)
         (before after : list SyncGroup) (group : SyncGroup) (e : exn),
    (load_groups st).1 = Ok (before ++ group :: after) ->
    for_each (_sync_group connectors) before (record (EvStorageGet "sync_groups") st)
    = (Ok tt, st1) ->
    _sync_group connectors group st1 = (Raise e, st2) ->
    run_once connectors st = (Raise e, st2)
    /\ (exists calls,
          log st2 = log st1 ++ calls /\ Forall (fun ev => is_store_write ev = false) calls)
    /\ forall tick later n,
         tick_connectors tick = connectors ->
         outcome (run (tick :: later) false n st) = Raised e
         /\ passes (run (tick :: later) false n st) = S n
         /\ final (run (tick :: later) false n st) = st2.
Proof.
  intros cs st st1 st2 before after g e Hload Hbefore Hg.
  assert (run_once cs st = (Raise e, st2)) as Hrun.
  { rewrite run_once_unfold, Hload, for_each_app, Hbefore. cbn [for_each].
    by rewrite M_bind_unfold, Hg. }
  split_and!.
  - done.
  - apply sync_group_raise_quiet in Hg as (calls & -> & Hcalls). by exists calls.
  - intros tick later n <-. cbn [run]. by rewrite Hrun.
Qed.

Lemma sweep_failure_ends_loop_witness :
  (load_groups three_way_state).1 = Ok ([] ++ three_way_group :: [stored_group test_group])
  /\ _sync_group broken_connectors three_way_group
       (record (EvStorageGet "sync_groups") three_way_state)
     = (Raise (ServiceError "replace failed"),
        (_sync_group broken_connectors three_way_group
           (record (EvStorageGet "sync_groups") three_way_state)).2)
  /\ run_once broken_connectors three_way_state
     = (Raise (ServiceError "replace failed"),
        (_sync_group broken_connectors three_way_group
           (record (EvStorageGet "sync_groups") three_way_state)).2)
  /\ (exists calls,
        log (_sync_group broken_connectors three_way_group
               (record (EvStorageGet "sync_groups") three_way_state)).2
        = log (record (EvStorageGet "sync_groups") three_way_state) ++ calls
        /\ Forall (fun ev => is_store_write ev = false) calls)
  /\ forall tick later n,
       tick_connectors tick = broken_connectors ->
       outcome (run (tick :: later) false n three_way_state)
       = Raised (ServiceError "replace failed")
       /\ passes (run (tick :: later) false n three_way_state) = S n
       /\ final (run (tick :: later) false n three_way_state)
          = (_sync_group broken_connectors three_way_group
               (record (EvStorageGet "sync_groups") three_way_state)).2.
Proof.
  assert ((load_groups three_way_state).1
          = Ok ([] ++ three_way_group :: [stored_group test_group])) as Hload
    by (vm_compute; reflexivity).
  assert (_sync_group broken_connectors three_way_group
            (record (EvStorageGet "sync_groups") three_way_state)
          = (Raise (ServiceError "replace failed"),
             (_sync_group broken_connectors three_way_group
                (record (EvStorageGet "sync_groups") three_way_state)).2)) as Hgroup
    by (vm_compute; reflexivity).
  split; [exact Hload|]. split; [exact Hgroup|].
  apply (sweep_failure_ends_loop broken_connectors three_way_state
           (record (EvStorageGet "sync_groups") three_way_state) _
           [] [stored_group test_group] three_way_group (ServiceError "replace failed"));
    [exact Hload|reflexivity|exact Hgroup].
Defined.

(** The first group of the registry fails; the sweep ends without a call
    for the second group, and a loop with two turns ahead and nobody calling
    [stop] ends after one pass. *)
Lemma sweep_failure_counterexample :
  (load_groups three_way_state).1 = Ok [three_way_group; stored_group test_group]
  /\ (run_once broken_connectors three_way_state).1 = Raise (ServiceError "replace failed")
  /\ log (run_once broken_connectors three_way_state).2
     = [EvStorageGet "sync_groups"; EvTokenReady SPOTIFY; EvListTracks SPOTIFY "spotify-1";
        EvStorageGet "sync_snapshot::g3"; EvTokenReady APPLE_MUSIC;
        EvSearchTrack APPLE_MUSIC spotify_track;
        EvReplaceTracks APPLE_MUSIC "apple_music-1" [apple_track]]
  /\ outcome (run [mkTick broken_connectors false false; mkTick broken_connectors false false]
                false 0 three_way_state)
     = Raised (ServiceError "replace failed")
  /\ passes (run [mkTick broken_connectors false false; mkTick broken_connectors false false]
               false 0 three_way_state) = 1.
Proof. split_and!; vm_compute; reflexivity. Qed.

(** ** The cycle of a group: the quiet paths *)



(** C6. A group whose primary service has no registered connector, or whose
    primary connector answers [token_ready] with false, or whose mapping has
    no entry under the primary service, is left with no playlist read,
    searched or replaced on any service and no store write; the only call
    there can be is the [token_ready] question to the primary connector. *)
Theorem skipped_group_untouched :
  forall (connectors : ServiceType -> option Connector) (group : SyncGroup) (st : State),
    (connectors (primary_service group) = None
     \/ (exists connector, connectors (primary_service group) = Some connector
                           /\ token_ready connector = Ok false)
     \/ dict_get (playlists group) (primary_service group) = None) ->
    exists calls,
      log (_sync_group connectors group st).2 = log st ++ calls
      /\ Forall (fun ev => ev = EvTokenReady (primary_service group)) calls
      /\ Forall (fun ev => is_playlist_io ev = false /\ is_store_write ev = false) calls
      /\ replace_calls calls = [].
Proof.
  intros cs g st Hskip.
  destruct (cs (primary_service g)) as [c|] eqn:Hc.
  - exists [EvTokenReady (primary_service g)].
    rewrite (sync_group_no_source cs g c); [|done|].
    + split_and!; try done; by repeat constructor.
    + destruct Hskip as [?|[(c' & [= <-] & Hready)|?]];
        [done|left; by rewrite Hready|right; by left].
  - exists []. rewrite sync_group_no_connector by done.
    rewrite app_nil_r. by split_and!.
Qed.

Lemma skipped_group_untouched_witness :
  (exists connector, unlinked_connectors (primary_service test_group) = Some connector
                     /\ token_ready connector = Ok false)
  /\ exists calls,
       log (_sync_group unlinked_connectors test_group empty_state).2 = log empty_state ++ calls
       /\ Forall (fun ev => ev = EvTokenReady (primary_service test_group)) calls
       /\ Forall (fun ev => is_playlist_io ev = false /\ is_store_write ev = false) calls
       /\ replace_calls calls = [].
Proof.
  assert (exists connector, unlinked_connectors (primary_service test_group) = Some connector
                            /\ token_ready connector = Ok false) as Hoff.
  { exists (FakeConnector SPOTIFY false). split; reflexivity. }
  split; [exact Hoff|].
  apply (skipped_group_untouched unlinked_connectors test_group empty_state).
  right. left. exact Hoff.
Defined.

(** ** The cycle of a group: the targets *)






(** ** The loop and the stop signal *)

Lemma run_until_stop (pre : list Tick) (tick : Tick) (later : list Tick) (n : nat)
    (st : State) :
  Forall undisturbed pre ->
  stop_during_pass tick || stop_during_wait tick = true ->
  run (pre ++ tick :: later) false n st = run (pre ++ [tick]) false n st
  /\ outcome (run (pre ++ tick :: later) false n st) <> Running
  /\ passes (run (pre ++ tick :: later) false n st) <= n + length pre + 1.
Proof.
  intros Hpre Hstop. revert n st. induction Hpre as [|t pre [Hp Hw] _ IH]; intros n st.
  - cbn [app run length].
    destruct (run_once (tick_connectors tick) st) as [[[]|e] st'] eqn:Hrun.
    + assert ((if stop_during_pass tick then true else stop_during_wait tick) = true) as ->.
      { by destruct (stop_during_pass tick). }
      rewrite !run_set. cbn. split_and!; [done|done|lia].
    + cbn. split_and!; [done|done|lia].
  - cbn [app run length].
    destruct (run_once (tick_connectors t) st) as [[[]|e] st'] eqn:Hrun.
    + rewrite Hp, Hw. destruct (IH (S n) st') as (H1 & H2 & H3).
      split_and!; [done|done|lia].
    + cbn. split_and!; [done|done|lia].
Qed.

(** C9. Once the stop event is set the loop starts no new pass.  With the
    event set at the check it returns at once.  When [stop] is called during
    a pass or during the wait after it, the loop returns after that one pass
    has completed, whatever the schedule holds after it; and in a longer
    run, once a turn brings the call, the turns after it play no part, so at
    most one pass per turn up to that one is started. *)
Theorem stop_starts_no_pass :
  forall (tick : Tick) (later : list Tick) (n : nat) (st : State),
    (forall schedule, run schedule true n st = mkRun Returned n true st)
    /\ (forall st',
          stop_during_pass tick || stop_during_wait tick = true ->
          run_once (tick_connectors tick) st = (Ok tt, st') ->
          run (tick :: later) false n st = mkRun Returned (S n) true st')
    /\ (forall pre,
          Forall undisturbed pre ->
          stop_during_pass tick || stop_during_wait tick = true ->
          run (pre ++ tick :: later) false n st = run (pre ++ [tick]) false n st
          /\ outcome (run (pre ++ tick :: later) false n st) <> Running
          /\ passes (run (pre ++ tick :: later) false n st) <= n + length pre + 1).
Proof.
  intros tick later n st. split_and!.
  - intros schedule. apply run_set.
  - intros st' Hstop Hpass. cbn [run]. rewrite Hpass.
    assert ((if stop_during_pass tick then true else stop_during_wait tick) = true) as ->.
    { by destruct (stop_during_pass tick). }
    apply run_set.
  - intros pre Hpre Hstop. by apply run_until_stop.
Qed.

Lemma stop_starts_no_pass_witness :
  run_once test_connectors test_state = (Ok tt, (run_once test_connectors test_state).2)
  /\ Forall undisturbed [mkTick test_connectors false false]
  /\ run (mkTick test_connectors false true :: [mkTick test_connectors false false]) false 0
       test_state
     = mkRun Returned 1 true (run_once test_connectors test_state).2
  /\ run ([mkTick test_connectors false false] ++ mkTick test_connectors false true
            :: [mkTick test_connectors false false]) false 0 test_state
     = run ([mkTick test_connectors false false] ++ [mkTick test_connectors false true])
         false 0 test_state
  /\ outcome (run ([mkTick test_connectors false false] ++ mkTick test_connectors false true
                     :: [mkTick test_connectors false false]) false 0 test_state) <> Running
  /\ passes (run ([mkTick test_connectors false false] ++ mkTick test_connectors false true
                    :: [mkTick test_connectors false false]) false 0 test_state)
     <= 0 + length [mkTick test_connectors false false] + 1.
Proof.
  assert (run_once test_connectors test_state = (Ok tt, (run_once test_connectors test_state).2))
    as Hpass by (vm_compute; reflexivity).
  assert (Forall undisturbed [mkTick test_connectors false false]) as Hpre.
  { apply Forall_cons. split; [by split|apply Forall_nil_2]. }
  split; [exact Hpass|]. split; [exact Hpre|].
  destruct (stop_starts_no_pass (mkTick test_connectors false true)
              [mkTick test_connectors false false] 0 test_state) as (_ & Hone & Hmany).
  split; [exact (Hone _ eq_refl Hpass)|].
  exact (Hmany [mkTick test_connectors false false] Hpre eq_refl).
Defined.
